(** * matchpy: the combinatorial core and the rewriting primitives

    A shallow embedding of [matchpy/utils.py] (Diophantine solver, partition
    enumerator, generator chain, commutative sequence-variable partitioner)
    and of [patternmatcher/functions.py] ([substitute], [replace]), followed
    by the properties established about them.

    Conventions of the embedding:
    - Python [int] is [Z]; [//] and [%] are floor division and its remainder,
      i.e. [Z.div] and [Z.modulo], and raise [ZeroDivisionError] on a zero
      divisor; [math.gcd] is [Z.gcd].
    - A tuple of integers is a [list Z].
    - A generator that is run to exhaustion is the [trace] of the values it
      yields followed by the exception that ends it, if any.
    - A generator that runs against shared mutable state is a list of
      [resumption]s, one per [next()] call, each a store transformer. *)

From Equations Require Import Equations.
From stdpp Require Import gmap strings list fin_maps sorting.
From Stdlib Require Import ZArith Lia Znumtheory.
Local Open Scope Z_scope.

(** ** Python values, exceptions and generators *)

Inductive exception : Type :=
  | ValueError
  | ZeroDivisionError
  | IndexError
  | KeyError.

Inductive result (A : Type) : Type :=
  | Ok (a : A)
  | Raise (e : exception).
Arguments Ok {A} a.
Arguments Raise {A} e.

Definition result_bind {A B} (m : result A) (k : A → result B) : result B :=
  match m with Ok a => k a | Raise e => Raise e end.

Notation "x ←? m ; k" := (result_bind m (fun x => k))
  (at level 20, m at level 100, k at level 200, right associativity, only parsing).

(** A generator run to exhaustion: the values it yields, in order, and the
    exception that ends it, if any. *)
Record trace (A : Type) : Type := Trace { yielded : list A; raised : option exception }.
Arguments Trace {A} yielded raised.
Arguments yielded {A} t.
Arguments raised {A} t.

Definition finished {A} (l : list A) : trace A := Trace l None.

Definition raising {A} (e : exception) : trace A := Trace [] (Some e).

Definition try_trace {A} (m : result (trace A)) : trace A :=
  match m with Ok t => t | Raise e => raising e end.

Definition trace_map {A B} (f : A → B) (t : trace A) : trace B :=
  Trace (f <$> yielded t) (raised t).

(** [for x in xs: body x], each [body x] yielding in turn; the first exception
    ends the loop. *)
Fixpoint for_each {A B} (xs : list A) (body : A → trace B) : trace B :=
  match xs with
  | [] => finished []
  | x :: xs' =>
      match body x with
      | Trace ys (Some e) => Trace ys (Some e)
      | Trace ys None =>
          let '(Trace zs r) := for_each xs' body in Trace (ys ++ zs) r
      end
  end.

(** [for x in g: body x] over a generator [g]: the exception ending [g], if
    any, surfaces after the values [g] yielded have been processed. *)
Definition for_trace {A B} (g : trace A) (body : A → trace B) : trace B :=
  match for_each (yielded g) body with
  | Trace ys (Some e) => Trace ys (Some e)
  | Trace ys None => Trace ys (raised g)
  end.

(** The same two loops when the body also updates a state (the solution
    cache). *)
Fixpoint for_each_st {A B St} (xs : list A) (body : A → St → trace B * St) (s : St)
  : trace B * St :=
  match xs with
  | [] => (finished [], s)
  | x :: xs' =>
      match body x s with
      | (Trace ys (Some e), s') => (Trace ys (Some e), s')
      | (Trace ys None, s') =>
          let '(Trace zs r, s'') := for_each_st xs' body s' in (Trace (ys ++ zs) r, s'')
      end
  end.

Definition for_trace_st {A B St} (g : trace A) (body : A → St → trace B * St) (s : St)
  : trace B * St :=
  match for_each_st (yielded g) body s with
  | (Trace ys (Some e), s') => (Trace ys (Some e), s')
  | (Trace ys None, s') => (Trace ys (raised g), s')
  end.

Definition py_mod (a b : Z) : result Z :=
  if decide (b = 0) then Raise ZeroDivisionError else Ok (a mod b).

Definition py_floordiv (a b : Z) : result Z :=
  if decide (b = 0) then Raise ZeroDivisionError else Ok (a / b).

(** [range(start, stop)] *)
Definition py_range (start stop : Z) : list Z := seqZ start (stop - start).

Definition py_len {A} (l : list A) : Z := Z.of_nat (length l).

(** [l[i]] for a list: the position addressed, counting from the end when [i]
    is negative; [IndexError] outside [-len l .. len l - 1]. *)
Definition py_index {A} (l : list A) (i : Z) : result nat :=
  if decide (0 ≤ i) then
    (if decide (i < py_len l) then Ok (Z.to_nat i) else Raise IndexError)
  else
    (if decide (- py_len l ≤ i) then Ok (Z.to_nat (py_len l + i)) else Raise IndexError).

Definition py_getitem {A} (l : list A) (i : Z) : result A :=
  n ←? py_index l i;
  match l !! n with Some a => Ok a | None => Raise IndexError end.

(** [l[i] = a] *)
Definition py_setitem {A} (l : list A) (i : Z) (a : A) : result (list A) :=
  n ←? py_index l i; Ok (<[n := a]> l).

(** The bound of a slice [l[:i]] or [l[i:]]: negative bounds count from the
    end, and every bound is clamped to [0 .. len l]. *)
Definition py_slice_bound {A} (l : list A) (i : Z) : nat :=
  if decide (i < 0) then Z.to_nat (Z.max (py_len l + i) 0)
  else Z.to_nat (Z.min i (py_len l)).

Definition py_slice_to {A} (l : list A) (stop : Z) : list A :=
  take (py_slice_bound l stop) l.

Definition py_slice_from {A} (l : list A) (start : Z) : list A :=
  drop (py_slice_bound l start) l.

(** ** matchpy/utils.py: integer_partition_vector_iter *)

Equations? integer_partition_vector_iter (total parts : Z) : list (list Z)
  by wf (Z.to_nat parts) lt :=
  integer_partition_vector_iter total parts with decide (parts < 0) := {
    | left _ => []
    | right _ with decide (parts = 0) := {
        | left _ => if decide (total = 0) then [[]] else []
        | right _ with decide (parts = 1) := {
            | left _ => [[total]]
            | right _ =>
                i ← py_range 0 (total + 1);
                vec ← integer_partition_vector_iter (total - i) (parts - 1);
                [i :: vec] } } }.
Proof. lia. Qed.

(** ** matchpy/utils.py: extended_euclid and base_solution_linear *)

Equations? extended_euclid (a b : Z) : Z * Z * Z by wf (Z.abs_nat b) lt :=
  extended_euclid a b with decide (b = 0) := {
    | left _ => (1, 0, a)
    | right _ =>
        let '(x0, y0, d) := extended_euclid b (a mod b) in
        (y0, x0 - (a / b) * y0, d) }.
Proof. pose proof (Z.mod_bound_or a b n). lia. Qed.

(** The loop [while y >= 0: if x >= 0: yield (x, y); x += b; y -= a] of
    [base_solution_linear]. It is entered only after the guard on [a] and [b]
    and the division by their common divisor, when both steps are positive
    ([base_solution_linear_steps] below); the steps are therefore taken as
    [positive], which is what makes the loop terminate. *)
Equations? ascend (a b : positive) (x y : Z) : list (Z * Z)
  by wf (Z.to_nat (y + 1)) lt :=
  ascend a b x y with decide (y >= 0) := {
    | left _ => (if decide (x >= 0) then [(x, y)] else []) ++
                ascend a b (x + Z.pos b) (y - Z.pos a)
    | right _ => [] }.
Proof. lia. Qed.

(** The loop [while x >= 0: if y >= 0: yield (x, y); x -= b; y += a]. *)
Equations? descend (a b : positive) (x y : Z) : list (Z * Z)
  by wf (Z.to_nat (x + 1)) lt :=
  descend a b x y with decide (x >= 0) := {
    | left _ => (if decide (y >= 0) then [(x, y)] else []) ++
                descend a b (x - Z.pos b) (y + Z.pos a)
    | right _ => [] }.
Proof. lia. Qed.

Definition base_solution_linear (a b c : Z) : trace (Z * Z) :=
  if decide (a <= 0 ∨ b <= 0) then raising ValueError
  else try_trace (
    let d := Z.gcd a (Z.gcd b c) in
    a ←? py_floordiv a d;
    b ←? py_floordiv b d;
    c ←? py_floordiv c d;
    if decide (c = 0) then Ok (finished [(0, 0)])
    else
      let '(x0, y0, d) := extended_euclid a b in
      r ←? py_mod c d;
      if decide (r ≠ 0) then Ok (finished [])
      else
        let x := c * x0 in
        let y := c * y0 in
        if decide (x <= 0) then Ok (finished (ascend (Z.to_pos a) (Z.to_pos b) x y))
        else Ok (finished (descend (Z.to_pos a) (Z.to_pos b) x y))).

(** ** matchpy/utils.py: solve_linear_diop *)

(** The pair [(x, y)] yielded by [base_solution_linear], as a 2-tuple. *)
Definition pair_tuple (p : Z * Z) : list Z := [p.1; p.2].

(** [remainder_gcd = math.gcd(coeffs[1], coeffs[2])] followed by
    [for coeff in coeffs[3:]: remainder_gcd = math.gcd(remainder_gcd, coeff)]. *)
Definition remainder_gcd_of (c1 c2 : Z) (rest : list Z) : Z :=
  fold_left Z.gcd rest (Z.gcd c1 c2).

(** [_linear_diop_solution_cache[cache_key] = tuple(solutions)]: the statement
    is reached only when the enumeration ended without an exception. *)
Definition store_solutions (cache : gmap (Z * list Z) (list (list Z)))
    (cache_key : Z * list Z) (t : trace (list Z)) : gmap (Z * list Z) (list (list Z)) :=
  match raised t with
  | None => <[cache_key := yielded t]> cache
  | Some _ => cache
  end.

(** [solve_linear_diop(total, *coeffs)], with the module-level
    [_linear_diop_solution_cache] threaded through as explicit state. The
    generator is run to exhaustion, so every enumeration that ends normally
    stores its solutions. *)
Equations? solve_linear_diop (cache : gmap (Z * list Z) (list (list Z)))
    (total : Z) (coeffs : list Z)
  : trace (list Z) * gmap (Z * list Z) (list (list Z))
  by wf (length coeffs) lt :=
  solve_linear_diop cache total [] :=
    (if decide (total = 0) then finished [[]] else finished [], cache);
  solve_linear_diop cache total [c] :=
    (try_trace (r ←? py_mod total c;
                if decide (r = 0) then q ←? py_floordiv total c; Ok (finished [[q]])
                else Ok (finished [])), cache);
  solve_linear_diop cache total (c0 :: c1 :: rest)
    with cache !! (total, c0 :: c1 :: rest) := {
    | Some solutions => (finished solutions, cache)
    | None with rest := {
        | [] =>
            let t := trace_map pair_tuple (base_solution_linear c0 c1 total) in
            (t, store_solutions cache (total, [c0; c1]) t)
        | c2 :: rest' =>
            let remainder_gcd := remainder_gcd_of c1 c2 rest' in
            let r :=
              for_trace_st (base_solution_linear c0 remainder_gcd total)
                (fun '(x, y) cache =>
                   if decide (remainder_gcd = 0) then (raising ZeroDivisionError, cache)
                   else
                     let new_coeffs := (fun c => c / remainder_gcd) <$> (c1 :: c2 :: rest') in
                     let r := solve_linear_diop cache y new_coeffs in
                     (trace_map (cons x) r.1, r.2))
                cache in
            (r.1, store_solutions r.2 (total, c0 :: c1 :: c2 :: rest') r.1) } }.
Proof. subst new_coeffs. rewrite length_fmap. simpl. lia. Qed.

(** [solve_linear_diop] with the cache left out: what the function computes
    when no entry of the cache is consulted. [solve_linear_diop] agrees with it
    on every cache that it has filled itself
    ([solve_linear_diop_cache_transparent] below), which is why the
    partitioner is modelled on it. *)
Equations? diop_solutions (total : Z) (coeffs : list Z) : trace (list Z)
  by wf (length coeffs) lt :=
  diop_solutions total [] := if decide (total = 0) then finished [[]] else finished [];
  diop_solutions total [c] :=
    try_trace (r ←? py_mod total c;
               if decide (r = 0) then q ←? py_floordiv total c; Ok (finished [[q]])
               else Ok (finished []));
  diop_solutions total [c0; c1] := trace_map pair_tuple (base_solution_linear c0 c1 total);
  diop_solutions total (c0 :: c1 :: c2 :: rest) :=
    let remainder_gcd := remainder_gcd_of c1 c2 rest in
    for_trace (base_solution_linear c0 remainder_gcd total) (fun '(x, y) =>
      if decide (remainder_gcd = 0) then raising ZeroDivisionError
      else
        let new_coeffs := (fun c => c / remainder_gcd) <$> (c1 :: c2 :: rest) in
        trace_map (cons x) (diop_solutions y new_coeffs)).
Proof. subst new_coeffs. rewrite length_fmap. simpl. lia. Qed.

(** ** matchpy/utils.py: generator_chain *)

(** How a loop over a generator ended. [OutOfFuel] is not a Python outcome: it
    marks a run of the model that was cut short. *)
Inductive completion : Type :=
  | Exhausted
  | Raised (e : exception)
  | OutOfFuel.

Definition emit {Out} (os : list Out) (r : list Out * completion) : list Out * completion :=
  (os ++ r.1, r.2).

Definition trace_completion {A} (t : trace A) : list A * completion :=
  (yielded t, match raised t with Some e => Raised e | None => Exhausted end).

Section generator_chain.
Context {Store Data Out : Type}.

(** One [next()] on a generator object: it runs against the shared store and
    either yields a datum or raises. A generator is the list of the
    resumptions it still has to offer; [StopIteration] is the empty list. *)
Definition resumption : Type := Store → result (Data * Store).

Definition generator : Type := list resumption.

(** The local variables of a running [generator_chain]. *)
Record chain_frame : Type := ChainFrame {
  generators : list (option generator);
  next_data : Data;
  generator_index : Z
}.

Variable factories : list (Data → generator).

(** The body of the consumer's [for] loop, run on each datum that
    [generator_chain] yields; it may itself yield and update the store. *)
Variable body : Data → Store → result (list Out * Store).

Definition generator_count : Z := Z.of_nat (length factories).

(** [while True: try: while generator_index < generator_count: ... yield ...
    except StopIteration: ...], one iteration of the inner loop, one [yield]
    or one [except] block per unit of fuel. *)
Fixpoint generator_chain_loop (fuel : nat) (fr : chain_frame) (s : Store)
  : list Out * completion :=
  match fuel with
  | O => ([], OutOfFuel)
  | S fuel' =>
      let i := Z.to_nat (generator_index fr) in
      if decide (generator_index fr < generator_count) then
        match factories !! i with
        | None => ([], Raised IndexError)
        | Some factory =>
            let g := match generators fr !! i with
                     | Some (Some g) => g
                     | _ => factory (next_data fr)
                     end in
            match g with
            | [] =>
                let fr' := ChainFrame (<[i := None]> (generators fr)) (next_data fr)
                                      (generator_index fr - 1) in
                if decide (generator_index fr' < 0) then ([], Exhausted)
                else generator_chain_loop fuel' fr' s
            | r :: g' =>
                match r s with
                | Raise e => ([], Raised e)
                | Ok (d, s') =>
                    generator_chain_loop fuel'
                      (ChainFrame (<[i := Some g']> (generators fr)) d
                                  (generator_index fr + 1)) s'
                end
            end
        end
      else
        match body (next_data fr) s with
        | Raise e => ([], Raised e)
        | Ok (os, s') =>
            emit os (generator_chain_loop fuel'
                       (ChainFrame (generators fr) (next_data fr)
                                   (generator_index fr - 1)) s')
        end
  end.

(** [for data in generator_chain(initial_data, *factories): body(data)] *)
Definition generator_chain (fuel : nat) (initial_data : Data) (s : Store)
  : list Out * completion :=
  if decide (generator_count = 0) then
    match body initial_data s with
    | Raise e => ([], Raised e)
    | Ok (os, _) => (os, Exhausted)
    end
  else
    generator_chain_loop fuel
      (ChainFrame (replicate (length factories) None) initial_data 0) s.

End generator_chain.

Arguments ChainFrame {Store Data} generators next_data generator_index.

(** A generator that yields the elements of a list and leaves the store
    alone. *)
Definition pure_generator {A} (l : list A) : @generator unit A :=
  (fun x (s : unit) => Ok (x, s)) <$> l.

(** [list(generator_chain(initial_data, *factories))] for factories without
    side effects; [None] when the fuel does not suffice. *)
Definition generator_chain_list {A} (fuel : nat) (initial_data : A)
    (factories : list (A → list A)) : option (list A) :=
  match generator_chain ((fun f d => pure_generator (f d)) <$> factories)
          (fun d s => Ok ([d], s)) fuel initial_data tt with
  | (os, Exhausted) => Some os
  | _ => None
  end.

(** ** matchpy/utils.py: the commutative sequence-variable partitioner *)

Record VariableWithCount : Type := {
  name : option string;
  count : Z;
  minimum : Z
}.

Section partition.
Context {T : Type} `{Countable T}.

(** Modelled from the spec: the [Multiset] class of the external [multiset]
    package, "unordered collection with per-element non-negative integer
    multiplicity", as a finite map to positive multiplicities. [m[element]]
    is 0 for an absent element. *)
Definition multiplicity (m : gmap T positive) (element : T) : Z :=
  match m !! element with Some p => Z.pos p | None => 0 end.

(** Modelled from the spec: [m[element] = mult]; a multiplicity that is not
    positive removes the element. *)
Definition multiset_setitem (m : gmap T positive) (element : T) (mult : Z)
  : gmap T positive :=
  if decide (0 < mult) then <[element := Z.to_pos mult]> m else delete element m.

(** Modelled from the spec: [len(m)], the sum of the multiplicities. *)
Definition multiset_len (m : gmap T positive) : Z :=
  map_fold (fun _ p acc => Z.pos p + acc) 0 m.

(** Modelled from the spec: [m.items()], the (value, count) pairs, in an
    order that is fixed but not specified. *)
Definition multiset_items (m : gmap T positive) : list (T * Z) :=
  (fun '(element, p) => (element, Z.pos p)) <$> map_to_list m.

(** [subst[var.name][value] = count] on the shared dictionary. *)
Definition assign (value : T) (subst : gmap (option string) (gmap T positive))
    (var_count : VariableWithCount * Z)
  : result (gmap (option string) (gmap T positive)) :=
  match subst !! name var_count.1 with
  | None => Raise KeyError
  | Some m => Ok (<[name var_count.1 := multiset_setitem m value var_count.2]> subst)
  end.

(** [for var, count in zip(variables, solution): subst[var.name][value] = count] *)
Fixpoint assign_all (value : T) (pairs : list (VariableWithCount * Z))
    (subst : gmap (option string) (gmap T positive))
  : result (gmap (option string) (gmap T positive)) :=
  match pairs with
  | [] => Ok subst
  | p :: pairs' => subst' ←? assign value subst p; assign_all value pairs' subst'
  end.

(** One iteration of the loop of [_factory]: the assignments for one solution
    and [yield subst]. The datum yielded is the dictionary object itself, the
    same one in every stage, so it carries no information of its own. *)
Definition _factory (value : T) (variables : list VariableWithCount)
    (solution : list Z)
  : @resumption (gmap (option string) (gmap T positive)) unit :=
  fun subst =>
    subst' ←? assign_all value (zip variables solution) subst;
    Ok (tt, subst').

Definition _make_variable_generator_factory (value : T) (total : Z)
    (variables : list VariableWithCount)
  : unit → @generator (gmap (option string) (gmap T positive)) unit :=
  let var_counts := count <$> variables in
  fun _ =>
    let solutions := diop_solutions total var_counts in
    (_factory value variables <$> yielded solutions) ++
    match raised solutions with
    | Some e => [fun _ => Raise e]
    | None => []
    end.

(** [{name: values} if name is not None else {}] *)
Definition fragment (variable_name : option string) (values : gmap T positive)
  : gmap (option string) (gmap T positive) :=
  match variable_name with
  | Some _ => {[ variable_name := values ]}
  | None => ∅
  end.

(** The loop of the [count != 1] branch; [Ok None] is its early [return]. *)
Fixpoint divide_items (items : list (T * Z)) (count : Z) (new_values : gmap T positive)
  : result (option (gmap T positive)) :=
  match items with
  | [] => Ok (Some new_values)
  | (element, element_count) :: items' =>
      r ←? py_mod element_count count;
      if decide (r ≠ 0) then Ok None
      else
        q ←? py_floordiv element_count count;
        divide_items items' count (multiset_setitem new_values element q)
  end.

Definition _commutative_single_variable_partiton_iter (values : gmap T positive)
    (variable : VariableWithCount)
  : trace (gmap (option string) (gmap T positive)) :=
  let '(Build_VariableWithCount name count minimum) := variable in
  if decide (count = 1) then
    if decide (multiset_len values >= minimum) then finished [fragment name values]
    else finished []
  else
    match divide_items (multiset_items values) count ∅ with
    | Raise e => raising e
    | Ok None => finished []
    | Ok (Some new_values) =>
        if decide (multiset_len new_values >= minimum)
        then finished [fragment name new_values]
        else finished []
    end.

(** [valid = True; for var in variables: if len(subst[var.name]) < var.minimum:
    valid = False; break] *)
Fixpoint check_minimums (variables : list VariableWithCount)
    (subst : gmap (option string) (gmap T positive)) : result bool :=
  match variables with
  | [] => Ok true
  | var :: variables' =>
      match subst !! name var with
      | None => Raise KeyError
      | Some m =>
          if decide (multiset_len m < minimum var) then Ok false
          else check_minimums variables' subst
      end
  end.

(** The body of [for subst in generator_chain(initial, *generators)]. What it
    yields is recorded as the contents of the dictionary at that moment. *)
Definition partition_body (variables : list VariableWithCount)
  : unit → gmap (option string) (gmap T positive) →
    result (list (gmap (option string) (gmap T positive)) *
            gmap (option string) (gmap T positive)) :=
  fun _ subst =>
    valid ←? check_minimums variables subst;
    if valid : bool then
      let subst := if decide (is_Some (subst !! None)) then delete None subst else subst in
      Ok ([subst], subst)
    else Ok ([], subst).

(** [dict((var.name, Multiset()) for var in variables)] *)
Definition initial_substitution (variables : list VariableWithCount)
  : gmap (option string) (gmap T positive) :=
  fold_left (fun d var => <[name var := ∅]> d) variables ∅.

Definition commutative_sequence_variable_partition_iter (fuel : nat)
    (values : gmap T positive) (variables : list VariableWithCount)
  : list (gmap (option string) (gmap T positive)) * completion :=
  match variables with
  | [variable] =>
      trace_completion (_commutative_single_variable_partiton_iter values variable)
  | _ =>
      let generators :=
        (fun '(value, count) => _make_variable_generator_factory value count variables)
          <$> multiset_items values in
      let initial := initial_substitution variables in
      generator_chain generators (partition_body variables) fuel tt initial
  end.

End partition.

(** ** patternmatcher/functions.py: substitute and replace *)

(** Modelled from the spec: the expression tree of [expressions.py], "immutable
    tree node" with the variants Symbol, Variable and Operation; an Operation
    "owns an ordered sequence of child Expressions and exposes a head
    identity". The class of an operation is its [head]. *)
#[local] Unset Elimination Schemes.
Inductive Expression : Type :=
  | Symbol (name : string)
  | Variable_ (name : string)
  | Operation (head : string) (operands : list Expression).
#[local] Set Elimination Schemes.

(** Structural induction on expressions, through the operand lists. *)
Section Expression_induction.
Variable P : Expression → Prop.
Hypothesis P_symbol : ∀ name, P (Symbol name).
Hypothesis P_variable : ∀ name, P (Variable_ name).
Hypothesis P_operation : ∀ head operands, Forall P operands → P (Operation head operands).

Fixpoint Expression_ind (e : Expression) : P e :=
  match e with
  | Symbol name => P_symbol name
  | Variable_ name => P_variable name
  | Operation head operands =>
      P_operation head operands
        ((fix go (l : list Expression) : Forall P l :=
            match l with
            | [] => Forall_nil_2 P
            | x :: l' => Forall_cons_2 P x l' (Expression_ind x) (go l')
            end) operands)
  end.

End Expression_induction.

(** What a substitution binds a variable to, and what [substitute] and
    [replace] take and return: an expression or a list of expressions. *)
Inductive Replacement : Type :=
  | Single (e : Expression)
  | Sequence (es : list Expression).

(** Modelled from the spec: [from_args] of the class of an operation,
    "construction from a flat operand list". The validation that the external
    operator classes may add is not part of this model. *)
Definition from_args (head : string) (operands : list Expression) : Expression :=
  Operation head operands.

(** [new_operands.extend(result)] for a list, [new_operands.append(result)]
    otherwise. *)
Definition extend_operands (new_operands : list Expression) (result : Replacement)
  : list Expression :=
  match result with
  | Sequence es => new_operands ++ es
  | Single e => new_operands ++ [e]
  end.

Fixpoint substitute (expression : Expression) (substitution : gmap string Replacement)
  : Replacement * bool :=
  match expression with
  | Variable_ name =>
      match substitution !! name with
      | Some r => (r, true)
      | None => (Single expression, false)
      end
  | Operation head operands =>
      let '(any_replaced, new_operands) :=
        fold_left (fun '(any_replaced, new_operands) operand =>
                     let '(result, replaced) := substitute operand substitution in
                     ((if replaced then true else any_replaced),
                      extend_operands new_operands result))
                  operands (false, []) in
      if any_replaced then (Single (from_args head new_operands), true)
      else (Single expression, false)
  | Symbol _ => (Single expression, false)
  end.

Fixpoint replace (expression : Expression) (position : list Z) (replacement : Replacement)
  : result Replacement :=
  match position with
  | [] => Ok replacement
  | pos :: position' =>
      match expression with
      | Operation head operands =>
          if decide (pos >= py_len operands) then Raise IndexError
          else
            operand ←? py_getitem operands pos;
            subexpr ←? replace operand position' replacement;
            match subexpr with
            | Sequence es =>
                Ok (Single (from_args head
                      (py_slice_to operands pos ++ es ++ py_slice_from operands (pos + 1))))
            | Single e =>
                operands' ←? py_setitem operands pos e;
                Ok (Single (from_args head operands'))
            end
      | _ => Raise IndexError
      end
  end.

(** ** The vocabulary of the properties *)

(** Lexicographic order on tuples. *)
Fixpoint lex_lt (u v : list Z) : Prop :=
  match u, v with
  | [], _ :: _ => True
  | x :: u', y :: v' => x < y ∨ (x = y ∧ lex_lt u' v')
  | _, [] => False
  end.

Definition vector_sum (v : list Z) : Z := foldr Z.add 0 v.

(** A [parts]-tuple of non-negative integers that sums to [total]. *)
Definition is_partition_vector (total parts : Z) (v : list Z) : Prop :=
  Z.of_nat (length v) = parts ∧ Forall (fun x => 0 ≤ x) v ∧ vector_sum v = total.

(** [c1 * x1 + ... + cn * xn] *)
Fixpoint weighted_sum (coeffs xs : list Z) : Z :=
  match coeffs, xs with
  | c :: coeffs', x :: xs' => c * x + weighted_sum coeffs' xs'
  | _, _ => 0
  end.

(** A tuple of non-negative integers, one per coefficient, that solves
    [c1 * x1 + ... + cn * xn = total]. *)
Definition is_solution (total : Z) (coeffs xs : list Z) : Prop :=
  length xs = length coeffs ∧ Forall (fun x => 0 ≤ x) xs ∧ weighted_sum coeffs xs = total.

(** Every entry of the cache holds what the function computes for its key. The
    cache is private to [solve_linear_diop], starts empty and is written by it
    alone, so these are the caches the function can meet. *)
Definition cache_coherent (cache : gmap (Z * list Z) (list (list Z))) : Prop :=
  ∀ total coeffs solutions,
    cache !! (total, coeffs) = Some solutions →
    diop_solutions total coeffs = finished solutions.

(** The nested loops that [generator_chain] flattens, for factories without
    side effects: [for d1 in f1(initial): for d2 in f2(d1): ... yield dn]. *)
Fixpoint nested_for {A} (factories : list (A → list A)) (d : A) : list A :=
  match factories with
  | [] => [d]
  | f :: factories' => d' ← f d; nested_for factories' d'
  end.

Section nested_loops.
Context {Store Data Out : Type}.
Variable body : Data → Store → result (list Out * Store).

(** The same nested loops run against the store:
    [for d1 in f1(initial): for d2 in f2(d1): ... body(dn)], ending at the
    first exception. *)
Fixpoint nested_loops (factories : list (Data → @generator Store Data))
    (d : Data) (s : Store) : list Out * result Store :=
  match factories with
  | [] =>
      match body d s with
      | Raise e => ([], Raise e)
      | Ok (os, s') => (os, Ok s')
      end
  | factory :: factories' =>
      (fix run_generator (g : generator) (s : Store) : list Out * result Store :=
         match g with
         | [] => ([], Ok s)
         | r :: g' =>
             match r s with
             | Raise e => ([], Raise e)
             | Ok (d', s1) =>
                 match nested_loops factories' d' s1 with
                 | (os, Raise e) => (os, Raise e)
                 | (os, Ok s2) =>
                     let '(os', r') := run_generator g' s2 in (os ++ os', r')
                 end
             end
         end) (factory d) s
  end.

(** The loop over one generator, with the remaining factories nested
    inside. *)
Definition run_generator (factories' : list (Data → @generator Store Data)) :=
  fix run_generator (g : generator) (s : Store) : list Out * result Store :=
    match g with
    | [] => ([], Ok s)
    | r :: g' =>
        match r s with
        | Raise e => ([], Raise e)
        | Ok (d', s1) =>
            match nested_loops factories' d' s1 with
            | (os, Raise e) => (os, Raise e)
            | (os, Ok s2) =>
                let '(os', r') := run_generator g' s2 in (os ++ os', r')
            end
        end
    end.

Definition completion_of (big : list Out * result Store) : list Out * completion :=
  match big with
  | (os, Raise e) => (os, Raised e)
  | (os, Ok _) => (os, Exhausted)
  end.

End nested_loops.

Section chain_refinement_vocabulary.
Context {Store Data Out : Type}.
Variable factories : list (Data → @generator Store Data).
Variable body : Data → Store → result (list Out * Store).

(** Where the loop stands once the generators from some stage on are spent. *)
Definition resume (fuel : nat) (fr : chain_frame) (s : Store) : list Out * completion :=
  if decide (generator_index fr < 0) then ([], Exhausted)
  else generator_chain_loop factories body fuel fr s.

(** From frame [fr] the loop produces what the nested loops [big] produce and
    then stands at stage [i'] with the generators [gens']. *)
Definition refines (fr : @chain_frame Store Data) (s : Store)
    (big : list Out * result Store) (gens' : list (option generator)) (i' : Z) : Prop :=
  ∃ n,
    match big with
    | (os, Raise e) => ∀ fuel, generator_chain_loop factories body (n + fuel) fr s = (os, Raised e)
    | (os, Ok s') =>
        ∃ d', ∀ fuel,
          generator_chain_loop factories body (n + fuel) fr s =
          emit os (resume fuel (ChainFrame gens' d' i') s')
    end.

Definition level_generator (og : option generator) (factory : Data → generator)
    (d : Data) : @generator Store Data :=
  match og with Some g => g | None => factory d end.

End chain_refinement_vocabulary.

Section partition_vocabulary.
Context {T : Type} `{Countable T}.

(** The sub-multiset a fragment assigns to a variable. *)
Definition assigned (frag : gmap (option string) (gmap T positive))
    (var : VariableWithCount) : gmap T positive :=
  default ∅ (frag !! name var).

(** The multiplicity of [element] in the sum, over all variables, of [count]
    times the assigned sub-multiset. *)
Definition accounted (variables : list VariableWithCount)
    (frag : gmap (option string) (gmap T positive)) (element : T) : Z :=
  foldr (fun var acc => count var * multiplicity (assigned frag var) element + acc)
        0 variables.

(** Every variable is bound, to a sub-multiset of at least its minimum size. *)
Definition minimums_met (variables : list VariableWithCount)
    (frag : gmap (option string) (gmap T positive)) : Prop :=
  ∀ var, var ∈ variables →
    ∃ m, frag !! name var = Some m ∧ minimum var ≤ multiset_len m.

(** The fragment accounts for the input exactly: no value lost or
    duplicated. *)
Definition accounts_for (variables : list VariableWithCount) (values : gmap T positive)
    (frag : gmap (option string) (gmap T positive)) : Prop :=
  ∀ element, accounted variables frag element = multiplicity values element.

Definition present (variables : list VariableWithCount)
    (subst : gmap (option string) (gmap T positive)) : Prop :=
  ∀ var, var ∈ variables → is_Some (subst !! name var).

Definition agree_outside (variables : list VariableWithCount) (keys : list T)
    (subst subst' : gmap (option string) (gmap T positive)) : Prop :=
  ∀ element, element ∉ keys → ∀ var, var ∈ variables →
    multiplicity (assigned subst' var) element = multiplicity (assigned subst var) element.

(** The factories of the stages for the values [todo]. *)
Definition level_factories (variables : list VariableWithCount) (todo : list (T * Z)) :=
  (fun '(value, count) => _make_variable_generator_factory value count variables)
    <$> todo.

Definition fragment_ok (variables : list VariableWithCount) (todo : list (T * Z))
    (subst frag : gmap (option string) (gmap T positive)) : Prop :=
  minimums_met variables frag ∧
  agree_outside variables todo.*1 subst frag ∧
  ∀ value m, (value, m) ∈ todo → accounted variables frag value = m.

End partition_vocabulary.

(** The names of the variables that occur in an expression. *)
Fixpoint variable_names (expression : Expression) : list string :=
  match expression with
  | Symbol _ => []
  | Variable_ name => [name]
  | Operation _ operands => mjoin (variable_names <$> operands)
  end.

Definition replacement_list (r : Replacement) : list Expression :=
  match r with Single e => [e] | Sequence es => es end.

(** The operand list rebuilt by [substitute]: every operand replaced by its
    result, a list-valued result by its elements. *)
Definition substituted_operands (substitution : gmap string Replacement)
    (operands : list Expression) : list Expression :=
  operands ≫= (fun o => replacement_list (substitute o substitution).1).



(** The inputs of the worked examples. *)
Definition x_once : VariableWithCount := {| name := Some "x"; count := 1; minimum := 0 |}.

Definition anonymous_once : VariableWithCount := {| name := None; count := 1; minimum := 0 |}.

Definition x_at_least_one : VariableWithCount := {| name := Some "x"; count := 1; minimum := 1 |}.

Definition y_twice : VariableWithCount := {| name := Some "y"; count := 2; minimum := 0 |}.

Definition one_a : gmap string positive := {[ "a" := 1%positive ]}.

Definition aaabbc : gmap string positive :=
  <["c" := 1%positive]> (<["b" := 2%positive]> {[ "a" := 3%positive ]}).

(** ** matchpy/utils.py: fixed_integer_vector_iter *)

(** [sum(max_vector)] is the fold written out: inside the function,
    [vector_sum] is the parameter. *)
Fixpoint fixed_integer_vector_iter (max_vector : list Z) (vector_sum : Z)
  : list (list Z) :=
  match max_vector with
  | [] => if decide (vector_sum = 0) then [[]] else []
  | max0 :: max_vector' =>
      let total := foldr Z.add 0 max_vector in
      if decide (vector_sum <= total) then
        let start := Z.max (max0 + vector_sum - total) 0 in
        let end_ := Z.min max0 vector_sum in
        j ← py_range start (end_ + 1);
        vec ← fixed_integer_vector_iter max_vector' (vector_sum - j);
        [j :: vec]
      else []
  end.

(** ** matchpy/utils.py: cached_property and slot_cached_property *)

Section cached_property.
Context {V : Type}.

(** An instance as [cached_property] sees it: its attribute dictionary and
    the values its slots hold, a slot that was never set having no entry. *)
Record instance : Type := {
  __dict__ : gmap string V;
  slot_values : gmap string V
}.

(** The descriptor: the getter, which may read and update the instance and
    may raise, the name of the getter and the slot, if any. *)
Record cached_property : Type := {
  fget : instance → result (V * instance);
  _name : string;
  _slot : option string
}.

(** [cached_property(getter, slot)], with [getter.__name__] passed along. *)
Definition cached_property_init (getter : instance → result (V * instance))
    (getter_name : string) (slot : option string) : cached_property :=
  {| fget := getter; _name := getter_name; _slot := slot |}.

(** [slot_cached_property(slot)(getter)] *)
Definition slot_cached_property (slot : string)
    (getter : instance → result (V * instance)) (getter_name : string)
  : cached_property :=
  cached_property_init getter getter_name (Some slot).

(** [__get__(self, obj, cls)]: the descriptor itself for an access through
    the class, otherwise the value and the instance as the access leaves it.
    [cls] holds the names of the slots of the class, a name that is missing
    being the [KeyError] of [cls.__dict__[self._slot]]; the slot descriptor
    reads the slot, its [AttributeError] being an empty slot, and writes
    it. *)
Definition __get__ (self : cached_property) (obj : option instance) (cls : gset string)
  : result (cached_property + V * instance) :=
  match obj with
  | None => Ok (inl self)
  | Some obj =>
      match _slot self with
      | Some slot =>
          if decide (slot ∈ cls) then
            match slot_values obj !! slot with
            | Some value => Ok (inr (value, obj))
            | None =>
                r ←? fget self obj;
                let '(value, obj) := r in
                Ok (inr (value, {| __dict__ := __dict__ obj;
                                   slot_values := <[slot := value]> (slot_values obj) |}))
            end
          else Raise KeyError
      | None =>
          obj ←? (if decide (_name self ∈ dom (__dict__ obj)) then Ok obj
                  else
                    r ←? fget self obj;
                    let '(value, obj) := r in
                    Ok {| __dict__ := <[_name self := value]> (__dict__ obj);
                          slot_values := slot_values obj |});
          match __dict__ obj !! _name self with
          | Some value => Ok (inr (value, obj))
          | None => Raise KeyError
          end
      end
  end.

End cached_property.

Arguments instance V : clear implicits.
Arguments cached_property V : clear implicits.

(** ** More vocabulary *)

(** Componentwise between 0 and [max_vector]. *)
Definition within (max_vector v : list Z) : Prop :=
  Forall2 (fun x m => 0 ≤ x ≤ m) v max_vector.

(** The binomial coefficient, by Pascal's rule. *)
Fixpoint binomial (n k : nat) : nat :=
  match n, k with
  | _, O => 1
  | O, S _ => 0
  | S n', S k' => binomial n' k' + binomial n' (S k')
  end.

(** The order in which [base_solution_linear] yields: [x] strictly up and
    [y] strictly down, or the other way round. *)
Definition x_increasing (p q : Z * Z) : Prop := p.1 < q.1 ∧ q.2 < p.2.

Definition x_decreasing (p q : Z * Z) : Prop := q.1 < p.1 ∧ p.2 < q.2.

Section partition_enumeration_vocabulary.
Context {T : Type} `{Countable T}.

(** No binding under a key that is not the name of a variable. *)
Definition only_binds (variables : list VariableWithCount)
    (frag : gmap (option string) (gmap T positive)) : Prop :=
  ∀ key, key ∉ name <$> variables → frag !! key = None.

(** How often each variable, in the order of the list, holds [value]. *)
Definition counts_in (variables : list VariableWithCount)
    (subst : gmap (option string) (gmap T positive)) (value : T) : list Z :=
  (fun var => multiplicity (assigned subst var) value) <$> variables.

End partition_enumeration_vocabulary.

(** The names of the variables that occur in a result of [substitute]. *)
Definition replacement_variables (r : Replacement) : list string :=
  replacement_list r ≫= variable_names.


(** More inputs of worked examples. *)
Definition x_no_count : VariableWithCount := {| name := Some "x"; count := 0; minimum := 0 |}.

Definition answer_getter : instance Z → result (Z * instance Z) :=
  fun obj => Ok (42, obj).

(** * Properties *)

Ltac keys_incl :=
  let e := fresh "e" in
  intros e; rewrite ?fmap_cons; cbn [fst]; rewrite ?elem_of_cons, ?elem_of_nil; tauto.
(** ** extended_euclid *)

Lemma extended_euclid_spec a b :
  0 ≤ a → 0 ≤ b →
  let '(x, y, d) := extended_euclid a b in a * x + b * y = d ∧ d = Z.gcd a b.
Proof.
  funelim (extended_euclid a b); intros Ha Hb.
  - subst. rewrite Z.gcd_0_r, Z.abs_eq by done. lia.
  - pose proof (Z.mod_pos_bound a b ltac:(lia)) as Hmod.
    specialize (H ltac:(lia) ltac:(lia)).
    destruct (extended_euclid b (a mod b)) as [[x0 y0] d]. simpl.
    destruct H as [Hbez Hgcd]. split.
    + pose proof (Z.div_mod a b ltac:(lia)). nia.
    + rewrite Hgcd, (Z.gcd_comm b), Z.gcd_mod by lia. apply Z.gcd_comm.
Qed.

(** ** The two loops of base_solution_linear *)

Lemma ascend_elem a b x y x' y' :
  (x', y') ∈ ascend a b x y ↔
  ∃ t, 0 ≤ t ∧ x' = x + Z.pos b * t ∧ y' = y - Z.pos a * t ∧ 0 ≤ x' ∧ 0 ≤ y'.
Proof.
  funelim (ascend a b x y).
  - rewrite elem_of_app, H. split.
    + intros [Hhd|(t & Ht & -> & -> & ? & ?)].
      * case_decide; [|by apply elem_of_nil in Hhd].
        apply list_elem_of_singleton in Hhd as [= -> ->]. exists 0. lia.
      * exists (t + 1). lia.
    + intros (t & Ht & -> & -> & ? & ?).
      destruct (decide (t = 0)) as [->|Hne].
      * left. rewrite decide_True by lia. apply list_elem_of_singleton. f_equal; lia.
      * right. exists (t - 1). lia.
  - split; [by intros ?%elem_of_nil|]. intros (t & Ht & -> & -> & ? & ?). nia.
Qed.

Lemma ascend_NoDup a b x y : NoDup (ascend a b x y).
Proof.
  funelim (ascend a b x y); [|constructor].
  apply NoDup_app. split; [|split; [|done]].
  - case_decide; [apply NoDup_singleton|constructor].
  - intros [x' y'] Hhd Htl. case_decide; [|by apply elem_of_nil in Hhd].
    apply list_elem_of_singleton in Hhd as [= -> ->].
    apply ascend_elem in Htl as (t & ? & ? & ? & ? & ?). nia.
Qed.

Lemma descend_elem a b x y x' y' :
  (x', y') ∈ descend a b x y ↔
  ∃ t, 0 ≤ t ∧ x' = x - Z.pos b * t ∧ y' = y + Z.pos a * t ∧ 0 ≤ x' ∧ 0 ≤ y'.
Proof.
  funelim (descend a b x y).
  - rewrite elem_of_app, H. split.
    + intros [Hhd|(t & Ht & -> & -> & ? & ?)].
      * case_decide; [|by apply elem_of_nil in Hhd].
        apply list_elem_of_singleton in Hhd as [= -> ->]. exists 0. lia.
      * exists (t + 1). lia.
    + intros (t & Ht & -> & -> & ? & ?).
      destruct (decide (t = 0)) as [->|Hne].
      * left. rewrite decide_True by lia. apply list_elem_of_singleton. f_equal; lia.
      * right. exists (t - 1). lia.
  - split; [by intros ?%elem_of_nil|]. intros (t & Ht & -> & -> & ? & ?). nia.
Qed.

Lemma descend_NoDup a b x y : NoDup (descend a b x y).
Proof.
  funelim (descend a b x y); [|constructor].
  apply NoDup_app. split; [|split; [|done]].
  - case_decide; [apply NoDup_singleton|constructor].
  - intros [x' y'] Hhd Htl. case_decide; [|by apply elem_of_nil in Hhd].
    apply list_elem_of_singleton in Hhd as [= -> ->].
    apply descend_elem in Htl as (t & ? & ? & ? & ? & ?). nia.
Qed.

Lemma coprime_line a b x0 y0 x y :
  0 < b → Z.gcd a b = 1 → a * x0 + b * y0 = a * x + b * y →
  ∃ t, x = x0 + b * t ∧ y = y0 - a * t.
Proof.
  intros Hb Hgcd Heq.
  assert (Hdiv : (b | x - x0)).
  { apply (Z.gauss b a); [|by rewrite Z.gcd_comm].
    exists (y0 - y). lia. }
  destruct Hdiv as [t Ht]. exists t. split; [lia|].
  assert (b * (y0 - y) = b * (a * t)) by nia.
  apply Z.mul_reg_l in H; lia.
Qed.

(** ** base_solution_linear *)

Lemma bezout_scaled_signs a b c x0 y0 :
  0 < a → 0 < b → a * x0 + b * y0 = 1 → ¬ (0 < c * x0 ∧ 0 < c * y0).
Proof.
  intros Ha Hb Hbez [Hx Hy].
  destruct (Z.lt_trichotomy c 0) as [Hc|[->|Hc]]; [|lia|].
  - assert (x0 < 0) by nia. assert (y0 < 0) by nia. nia.
  - assert (0 < x0) by nia. assert (0 < y0) by nia. nia.
Qed.

Lemma gcd3_normalise a b c :
  0 < a →
  let d := Z.gcd a (Z.gcd b c) in
  0 < d ∧ a = a / d * d ∧ b = b / d * d ∧ c = c / d * d ∧
  Z.gcd (a / d) (Z.gcd (b / d) (c / d)) = 1.
Proof.
  intros Ha d.
  assert (Hd : 0 < d).
  { pose proof (Z.gcd_nonneg a (Z.gcd b c)) as Hn. fold d in Hn.
    destruct (decide (d = 0)) as [Hz|]; [|lia].
    apply Z.gcd_eq_0_l in Hz. lia. }
  assert (Hda : (d | a)) by apply Z.gcd_divide_l.
  assert (Hdg : (d | Z.gcd b c)) by apply Z.gcd_divide_r.
  assert (Hdb : (d | b)) by (apply (Z.divide_trans _ (Z.gcd b c)); [done|apply Z.gcd_divide_l]).
  assert (Hdc : (d | c)) by (apply (Z.divide_trans _ (Z.gcd b c)); [done|apply Z.gcd_divide_r]).
  split; [done|].
  repeat split.
  - apply Z.mod_divide in Hda; [|lia]. pose proof (Z.div_mod a d). lia.
  - apply Z.mod_divide in Hdb; [|lia]. pose proof (Z.div_mod b d). lia.
  - apply Z.mod_divide in Hdc; [|lia]. pose proof (Z.div_mod c d). lia.
  - rewrite Z.gcd_div_factor by done.
    apply Z.gcd_div_gcd; [lia|done].
Qed.

(** Past the guard, the steps of the two loops are the normalised [a] and [b]
    themselves. *)
Lemma base_solution_linear_steps a b c :
  0 < a → 0 < b →
  Z.pos (Z.to_pos (a / Z.gcd a (Z.gcd b c))) = a / Z.gcd a (Z.gcd b c) ∧
  Z.pos (Z.to_pos (b / Z.gcd a (Z.gcd b c))) = b / Z.gcd a (Z.gcd b c).
Proof.
  intros Ha Hb. destruct (gcd3_normalise a b c Ha) as (Hd & Ea & Eb & _).
  split; apply Z2Pos.id; nia.
Qed.

Lemma base_solution_linear_positive a b c :
  0 < a → 0 < b →
  ∃ l, base_solution_linear a b c = finished l ∧ NoDup l ∧
       ∀ x y, (x, y) ∈ l ↔ 0 ≤ x ∧ 0 ≤ y ∧ a * x + b * y = c.
Proof.
  intros Ha Hb. unfold base_solution_linear.
  rewrite decide_False by lia.
  destruct (gcd3_normalise a b c Ha) as (Hd & Ea & Eb & Ec & Hcop).
  set (d := Z.gcd a (Z.gcd b c)) in *.
  unfold py_floordiv. rewrite !decide_False by lia. cbn [result_bind].
  set (a' := a / d) in *. set (b' := b / d) in *. set (c' := c / d) in *.
  assert (Ha' : 0 < a') by nia. assert (Hb' : 0 < b') by nia.
  assert (Hnorm : ∀ x y, a * x + b * y = c ↔ a' * x + b' * y = c').
  { intros x y. split; intros Heq; [|nia].
    apply (Z.mul_reg_r _ _ d); [lia|]. lia. }
  case_decide as Hc'.
  { exists [(0, 0)]. split; [done|]. split; [apply NoDup_singleton|].
    intros x y. rewrite list_elem_of_singleton, Hnorm, Hc'. split.
    - intros [= -> ->]. lia.
    - intros (? & ? & ?). f_equal; nia. }
  pose proof (extended_euclid_spec a' b' ltac:(lia) ltac:(lia)) as Hee.
  destruct (extended_euclid a' b') as [[x0 y0] g]. destruct Hee as [Hbez Hg].
  assert (Hgpos : 0 < g).
  { pose proof (Z.gcd_nonneg a' b').
    destruct (decide (g = 0)) as [Hz|]; [|lia].
    rewrite Hz in Hg. symmetry in Hg. apply Z.gcd_eq_0_l in Hg. lia. }
  unfold py_mod. rewrite decide_False by lia. cbn [result_bind].
  case_decide as Hmod.
  { exists []. split; [done|]. split; [constructor|].
    intros x y. split; [by intros ?%elem_of_nil|].
    intros (_ & _ & Heq). apply Hnorm in Heq. exfalso. apply Hmod.
    apply Z.mod_divide; [lia|]. rewrite <- Heq.
    apply Z.divide_add_r; apply Z.divide_mul_l; rewrite Hg;
      [apply Z.gcd_divide_l|apply Z.gcd_divide_r]. }
  assert (Hg1 : g = 1).
  { assert (Hgc : (g | c')).
    { apply Z.mod_divide; [lia|]. destruct (decide (c' mod g = 0)); [done|].
      exfalso. tauto. }
    assert (Hdiv : (g | 1)).
    { rewrite <- Hcop. apply Z.gcd_greatest; [rewrite Hg; apply Z.gcd_divide_l|].
      apply Z.gcd_greatest; [rewrite Hg; apply Z.gcd_divide_r|done]. }
    apply Z.divide_1_r_nonneg in Hdiv; lia. }
  subst g. symmetry in Hg.
  set (X := c' * x0). set (Y := c' * y0).
  assert (HXY : a' * X + b' * Y = c') by (subst X Y; nia).
  case_decide as HX.
  - exists (ascend (Z.to_pos a') (Z.to_pos b') X Y).
    split; [done|]. split; [apply ascend_NoDup|].
    intros x y. rewrite ascend_elem, !Z2Pos.id by done. rewrite Hnorm. split.
    + intros (t & Ht & -> & -> & ? & ?). split; [done|]. split; [done|]. rewrite <- HXY. ring.
    + intros (Hx & Hy & Heq).
      destruct (coprime_line a' b' X Y x y) as (t & -> & ->); [done|lia|lia|].
      exists t. repeat split; try done. nia.
  - exists (descend (Z.to_pos a') (Z.to_pos b') X Y).
    split; [done|]. split; [apply descend_NoDup|].
    intros x y. rewrite descend_elem, !Z2Pos.id by done. rewrite Hnorm. split.
    + intros (t & Ht & -> & -> & ? & ?). split; [done|]. split; [done|]. rewrite <- HXY. ring.
    + intros (Hx & Hy & Heq).
      destruct (coprime_line a' b' X Y x y) as (t & -> & ->); [done|lia|lia|].
      exists (- t). repeat split; try lia.
      destruct (decide (t ≤ 0)); [lia|]. exfalso.
      apply (bezout_scaled_signs a' b' c' x0 y0); [done|done|done|].
      fold X Y. split; [lia|nia].
Qed.

Lemma base_solution_linear_raised a b c e :
  raised (base_solution_linear a b c) = Some e ↔ e = ValueError ∧ (a <= 0 ∨ b <= 0).
Proof.
  destruct (decide (a <= 0 ∨ b <= 0)) as [Hbad|Hok].
  - unfold base_solution_linear. rewrite decide_True by done. simpl.
    split; [by intros [= <-]|by intros [-> _]].
  - destruct (base_solution_linear_positive a b c) as (l & -> & _); [lia|lia|].
    simpl. split; [done|]. by intros [_ ?].
Qed.

(** ** solve_linear_diop *)

Lemma for_each_finished {A B} (xs : list A) (body : A → trace B) :
  (∀ x, x ∈ xs → raised (body x) = None) →
  for_each xs body = finished (xs ≫= fun x => yielded (body x)).
Proof.
  induction xs as [|x xs IH]; intros Hok; [done|].
  simpl. pose proof (Hok x ltac:(left)) as Hx.
  destruct (body x) as [ys r]. simpl in Hx. subst r.
  rewrite IH by (intros; apply Hok; by right). done.
Qed.

Lemma for_trace_finished {A B} (xs : list A) (body : A → trace B) :
  (∀ x, x ∈ xs → raised (body x) = None) →
  for_trace (finished xs) body = finished (xs ≫= fun x => yielded (body x)).
Proof. intros Hok. unfold for_trace. simpl. by rewrite for_each_finished. Qed.

Lemma remainder_gcd_of_spec c1 c2 rest :
  0 < c1 →
  let g := remainder_gcd_of c1 c2 rest in
  0 < g ∧ Forall (fun c => (g | c)) (c1 :: c2 :: rest).
Proof.
  intros Hc1. unfold remainder_gcd_of.
  assert (Hgen : ∀ l g0, 0 < g0 →
            0 < fold_left Z.gcd l g0 ∧ (fold_left Z.gcd l g0 | g0) ∧
            Forall (fun c => (fold_left Z.gcd l g0 | c)) l).
  { induction l as [|c l IH]; intros g0 Hg0; simpl.
    - split; [done|]. split; [reflexivity|constructor].
    - assert (Hpos : 0 < Z.gcd g0 c).
      { pose proof (Z.gcd_nonneg g0 c).
        destruct (decide (Z.gcd g0 c = 0)) as [Hz|]; [|lia].
        apply Z.gcd_eq_0_l in Hz. lia. }
      destruct (IH _ Hpos) as (Hg & Hdiv & Hall).
      split; [done|]. split; [|constructor; [|done]].
      + etrans; [exact Hdiv|apply Z.gcd_divide_l].
      + etrans; [exact Hdiv|apply Z.gcd_divide_r]. }
  assert (Hpos : 0 < Z.gcd c1 c2).
  { pose proof (Z.gcd_nonneg c1 c2).
    destruct (decide (Z.gcd c1 c2 = 0)) as [Hz|]; [|lia].
    apply Z.gcd_eq_0_l in Hz. lia. }
  destruct (Hgen rest _ Hpos) as (Hg & Hdiv & Hall).
  split; [done|]. constructor; [|constructor; [|done]].
  - etrans; [exact Hdiv|apply Z.gcd_divide_l].
  - etrans; [exact Hdiv|apply Z.gcd_divide_r].
Qed.

Lemma exact_quotient g c : 0 < g → (g | c) → c = g * (c / g).
Proof.
  intros Hg Hdiv. apply Z.mod_divide in Hdiv; [|lia].
  pose proof (Z.div_mod c g). lia.
Qed.

Lemma weighted_sum_scale g coeffs xs :
  0 < g → Forall (fun c => (g | c)) coeffs →
  weighted_sum coeffs xs = g * weighted_sum ((fun c => c / g) <$> coeffs) xs.
Proof.
  intros Hg Hall. revert xs. induction Hall as [|c coeffs Hc Hall IH]; intros xs.
  - simpl. lia.
  - destruct xs as [|x xs]; simpl; [lia|]. rewrite IH.
    pose proof (exact_quotient g c Hg Hc) as Hq. revert Hq.
    generalize (c / g). intros q ->. unfold fmap. ring.
Qed.

Lemma weighted_sum_nonneg coeffs xs :
  Forall (fun c => 0 < c) coeffs → Forall (fun x => 0 ≤ x) xs → 0 ≤ weighted_sum coeffs xs.
Proof.
  intros Hc. revert xs. induction Hc as [|c coeffs Hc Hall IH]; intros xs Hxs; [simpl; lia|].
  destruct Hxs as [|x xs Hx Hxs]; simpl; [lia|]. specialize (IH xs Hxs). nia.
Qed.

Lemma diop_solutions_spec total coeffs :
  Forall (fun c => 0 < c) coeffs → 0 ≤ total ∨ length coeffs ≠ 1%nat →
  ∃ l, diop_solutions total coeffs = finished l ∧ NoDup l ∧
       ∀ xs, xs ∈ l ↔ is_solution total coeffs xs.
Proof.
  funelim (diop_solutions total coeffs); intros Hpos Htot.
  - case_decide as Ht.
    + exists [[]]. split; [done|]. split; [apply NoDup_singleton|].
      intros xs. rewrite list_elem_of_singleton. unfold is_solution. split.
      * intros ->. simpl. by repeat split.
      * intros (Hlen & _ & _). by destruct xs.
    + exists []. split; [done|]. split; [constructor|].
      intros xs. split; [by intros ?%elem_of_nil|].
      intros (_ & _ & Hsum). simpl in Hsum. lia.
  - apply Forall_cons in Hpos as [Hc _]. destruct Htot as [Htot|?]; [|done].
    unfold py_mod, py_floordiv. rewrite decide_False by lia. cbn [result_bind].
    case_decide as Hmod.
    + rewrite decide_False by lia. cbn [result_bind try_trace].
      exists [[total / c]]. split; [done|]. split; [apply NoDup_singleton|].
      pose proof (Z.div_mod total c ltac:(lia)) as Hdm.
      assert (0 ≤ total / c) by (apply Z.div_pos; lia).
      intros xs. rewrite list_elem_of_singleton. unfold is_solution. split.
      * intros ->. simpl. split; [done|]. split; [by repeat constructor|lia].
      * intros (Hlen & Hnn & Hsum). destruct xs as [|x [|??]]; try done.
        simpl in Hsum. f_equal. nia.
    + cbn [try_trace]. exists []. split; [done|]. split; [constructor|].
      intros xs. split; [by intros ?%elem_of_nil|].
      intros (Hlen & Hnn & Hsum). destruct xs as [|x [|??]]; try done.
      simpl in Hsum. exfalso. apply Hmod. apply Z.mod_divide; [lia|].
      exists x. lia.
  - apply Forall_cons in Hpos as [Hc0 [Hc1 _]%Forall_cons].
    destruct (base_solution_linear_positive c0 c1 total Hc0 Hc1) as (l & -> & Hnd & Hl).
    exists (pair_tuple <$> l). split; [done|]. split.
    + apply NoDup_fmap_2; [|done]. intros [x y] [x' y'] [= -> ->]. done.
    + intros xs. rewrite list_elem_of_fmap. unfold is_solution. split.
      * intros ([x y] & -> & Hin). apply Hl in Hin as (? & ? & ?).
        simpl. split; [done|]. split; [by repeat constructor|lia].
      * intros (Hlen & Hnn & Hsum). destruct xs as [|x [|y [|??]]]; try done.
        simpl in Hsum. exists (x, y). split; [done|]. apply Hl.
        apply Forall_cons in Hnn as [? [? _]%Forall_cons]. lia.
  - clear Heqcall.
    apply Forall_cons in Hpos as [Hc0 Hpos]. pose proof Hpos as Hpos'.
    apply Forall_cons in Hpos' as [Hc1 _].
    destruct (remainder_gcd_of_spec c1 c2 rest Hc1) as [Hg Hdiv].
    set (g := remainder_gcd_of c1 c2 rest) in *.
    set (new_coeffs := (λ c : Z, c / g) <$> c1 :: c2 :: rest) in *.
    assert (Hnew : Forall (fun c => 0 < c) new_coeffs).
    { subst new_coeffs. apply Forall_fmap. apply Forall_forall. intros c Hin. simpl.
      rewrite Forall_forall in Hpos, Hdiv.
      pose proof (exact_quotient g c Hg (Hdiv c Hin)). pose proof (Hpos c Hin). nia. }
    assert (Hlen_new : length new_coeffs ≠ 1%nat) by (subst new_coeffs; simpl; lia).
    assert (IH : ∀ y, ∃ l, diop_solutions y new_coeffs = finished l ∧ NoDup l ∧
                         ∀ xs, xs ∈ l ↔ is_solution y new_coeffs xs).
    { intros y. apply (H (0, 0) 0 y); [lia|done|by right]. }
    clear H.
    destruct (base_solution_linear_positive c0 g total Hc0 Hg) as (pairs & -> & Hnd & Hpairs).
    rewrite for_trace_finished; cycle 1.
    { intros [x y] _. rewrite decide_False by lia.
      destruct (IH y) as (l & -> & _). done. }
    eexists. split; [done|]. split.
    + apply NoDup_bind; [| |done].
      * intros [x y] [x' y'] xs _ _. rewrite !decide_False by lia.
        destruct (IH y) as (l & -> & _ & Hl). destruct (IH y') as (l' & -> & _ & Hl').
        simpl. rewrite !list_elem_of_fmap.
        intros (ys & -> & Hys) (ys' & [= -> ->] & Hys').
        apply Hl in Hys as (_ & _ & <-). apply Hl' in Hys' as (_ & _ & <-). done.
      * intros [x y] _. rewrite decide_False by lia.
        destruct (IH y) as (l & -> & Hndl & _). simpl.
        apply NoDup_fmap_2; [|done]. by intros ?? [= ->].
    + intros xs. rewrite list_elem_of_bind. unfold is_solution. split.
      * intros ([x y] & Hxs & Hxy). rewrite decide_False in Hxs by lia.
        destruct (IH y) as (l & Hy & _ & Hl). rewrite Hy in Hxs. simpl in Hxs.
        apply list_elem_of_fmap in Hxs as (ys & -> & Hys).
        apply Hl in Hys as (Hlen & Hnn & Hsum). apply Hpairs in Hxy as (Hx & Hy' & Heq).
        split; [simpl; subst new_coeffs; rewrite length_fmap in Hlen; simpl in *; lia|].
        split; [by constructor|].
        change (c0 * x + weighted_sum (c1 :: c2 :: rest) ys = total).
        rewrite (weighted_sum_scale g) by done. fold new_coeffs. lia.
      * intros (Hlen & Hnn & Hsum). destruct xs as [|x ys]; [done|].
        apply Forall_cons in Hnn as [Hx Hys].
        change (c0 * x + weighted_sum (c1 :: c2 :: rest) ys = total) in Hsum.
        rewrite (weighted_sum_scale g) in Hsum by done. fold new_coeffs in Hsum.
        exists (x, weighted_sum new_coeffs ys). split.
        -- rewrite decide_False by lia.
           destruct (IH (weighted_sum new_coeffs ys)) as (l & -> & _ & Hl). simpl.
           apply list_elem_of_fmap. exists ys. split; [done|]. apply Hl.
           split; [subst new_coeffs; rewrite length_fmap; simpl in *; lia|]. done.
        -- apply Hpairs. split; [done|]. split; [by apply weighted_sum_nonneg|lia].
Qed.

(** ** integer_partition_vector_iter *)

Lemma lex_lt_irrefl v : ¬ lex_lt v v.
Proof. induction v as [|x v IH]; simpl; [tauto|]. intros [?|[_ ?]]; [lia|tauto]. Qed.

Lemma StronglySorted_lex_NoDup l : StronglySorted lex_lt l → NoDup l.
Proof.
  induction 1 as [|v l _ IH Hall]; constructor; [|done].
  intros Hin. rewrite Forall_forall in Hall. by apply (lex_lt_irrefl v), Hall.
Qed.

Lemma seqZ_StronglySorted m n : StronglySorted Z.lt (seqZ m n).
Proof.
  destruct (decide (n ≤ 0)) as [Hn|Hn]; [rewrite seqZ_nil by done; constructor|].
  rewrite <- (Z2Nat.id n) by lia. generalize (Z.to_nat n). clear Hn n. intros k.
  revert m. induction k as [|k IH]; intros m; [constructor|].
  rewrite seqZ_cons by lia. constructor.
  - replace (Z.pred (Z.of_nat (S k))) with (Z.of_nat k) by lia. apply IH.
  - apply Forall_seqZ. lia.
Qed.

Lemma StronglySorted_bind {A B} (R : relation B) (S : relation A) (l : list A)
    (f : A → list B) :
  StronglySorted S l →
  (∀ x, x ∈ l → StronglySorted R (f x)) →
  (∀ x y a b, x ∈ l → y ∈ l → S x y → a ∈ f x → b ∈ f y → R a b) →
  StronglySorted R (l ≫= f).
Proof.
  induction 1 as [|x l Hl IH Hall]; intros Hf HR; [constructor|].
  change ((x :: l) ≫= f) with (f x ++ (l ≫= f)).
  apply StronglySorted_app. split; [|split].
  - intros a b Ha Hb. apply list_elem_of_bind in Hb as (y & Hb & Hy).
    rewrite Forall_forall in Hall.
    apply (HR x y); [by left|by right|by apply Hall|done|done].
  - apply Hf. by left.
  - apply IH.
    + intros y Hy. apply Hf. by right.
    + intros y z a b Hy Hz. apply HR; by right.
Qed.

Lemma integer_partition_vector_iter_spec total parts :
  1 ≤ parts → 0 ≤ total ∨ parts ≠ 1 →
  StronglySorted lex_lt (integer_partition_vector_iter total parts) ∧
  ∀ v, v ∈ integer_partition_vector_iter total parts ↔ is_partition_vector total parts v.
Proof.
  funelim (integer_partition_vector_iter total parts); intros Hparts Htot; try lia.
  - subst. destruct Htot as [Htot|?]; [|done]. split; [repeat constructor|].
    intros v. rewrite list_elem_of_singleton. unfold is_partition_vector. split.
    + intros ->. simpl. split; [done|]. split; [by repeat constructor|]. unfold vector_sum. simpl. lia.
    + intros (Hlen & Hnn & Hsum). destruct v as [|x [|??]]; simpl in Hlen; try lia.
      unfold vector_sum in Hsum. simpl in Hsum. f_equal. lia.
  - clear Heqcall.
    assert (IH : ∀ i, 0 ≤ i ≤ total →
              StronglySorted lex_lt (integer_partition_vector_iter (total - i) (parts - 1)) ∧
              ∀ v, v ∈ integer_partition_vector_iter (total - i) (parts - 1) ↔
                   is_partition_vector (total - i) (parts - 1) v).
    { intros i Hi. apply H; lia. }
    clear H. unfold py_range. split.
    + apply (StronglySorted_bind _ Z.lt); [apply seqZ_StronglySorted| |].
      * intros i Hi%elem_of_seqZ. destruct (IH i ltac:(lia)) as [Hs _].
        revert Hs. generalize (integer_partition_vector_iter (total - i) (parts - 1)).
        induction 1 as [|v l Hl IHl Hall]; [constructor|].
        change (StronglySorted lex_lt ([i :: v] ++ (l ≫= λ vec, [i :: vec]))).
        apply StronglySorted_app. split; [|split; [repeat constructor|done]].
        intros a b ->%list_elem_of_singleton (w & ->%list_elem_of_singleton & Hw)%list_elem_of_bind.
        simpl. right. split; [done|]. rewrite Forall_forall in Hall. by apply Hall.
      * intros i j a b _ _ Hij (v & ->%list_elem_of_singleton & _)%list_elem_of_bind
          (w & ->%list_elem_of_singleton & _)%list_elem_of_bind.
        simpl. by left.
    + intros v. rewrite list_elem_of_bind. unfold is_partition_vector. split.
      * intros (i & (w & ->%list_elem_of_singleton & Hw)%list_elem_of_bind & Hi%elem_of_seqZ).
        apply (IH i ltac:(lia)) in Hw as (Hlen & Hnn & Hsum).
        simpl. split; [lia|]. split; [constructor; [lia|done]|].
        unfold vector_sum in *. simpl. lia.
      * intros (Hlen & Hnn & Hsum). destruct v as [|i w]; [simpl in Hlen; lia|].
        apply Forall_cons in Hnn as [Hi Hw]. unfold vector_sum in Hsum. simpl in Hsum.
        assert (0 ≤ foldr Z.add 0 w).
        { clear -Hw. induction Hw; simpl; lia. }
        exists i. split; [|apply elem_of_seqZ; lia].
        apply list_elem_of_bind. exists w. split; [by left|].
        apply (IH i ltac:(lia)). split; [simpl in Hlen; lia|]. split; [done|].
        unfold vector_sum. lia.
Qed.

Lemma integer_partition_vector_iter_no_parts total parts :
  (parts < 0 → integer_partition_vector_iter total parts = []) ∧
  (parts = 0 →
   integer_partition_vector_iter total parts = if decide (total = 0) then [[]] else []).
Proof.
  split; intros Hparts; simp integer_partition_vector_iter.
  - destruct (decide (parts < 0)); [done|lia].
  - subst parts. reflexivity.
Qed.

(** C8. The code at [total = -1], [parts = 1]: it yields the tuple [(-1,)],
    which is not a tuple of non-negative integers, where no such tuple sums
    to [-1] and nothing should be yielded; with two parts the same total
    yields nothing. (On every other input the enumeration is the one
    claimed: [integer_partition_vector_iter_spec] and
    [integer_partition_vector_iter_no_parts].) *)
Theorem integer_partition_vector_iter_negative_total :
  integer_partition_vector_iter (-1) 1 = [[-1]] ∧
  ¬ is_partition_vector (-1) 1 [-1] ∧
  (∀ v, ¬ is_partition_vector (-1) 1 v) ∧
  integer_partition_vector_iter (-1) 2 = [].
Proof.
  assert (Hnone : ∀ v, ¬ is_partition_vector (-1) 1 v).
  { intros v (Hlen & Hnn & Hsum). destruct v as [|x [|??]]; simpl in Hlen; try lia.
    apply Forall_cons in Hnn as [Hx _]. unfold vector_sum in Hsum. simpl in Hsum. lia. }
  split; [reflexivity|]. split; [apply Hnone|]. split; [exact Hnone|]. reflexivity.
Qed.

(** C3. [base_solution_linear a b c] raises [ValueError], before yielding
    anything, exactly when [a <= 0] or [b <= 0]; for positive [a], [b] and [c]
    it ends normally and yields exactly the pairs of non-negative integers
    with [a * x + b * y = c], each once; and when [c] divided by
    [gcd(a, gcd(b, c))] is 0 it yields exactly [(0, 0)]. *)
Theorem base_solution_linear_spec :
  (∀ a b c, a <= 0 ∨ b <= 0 → base_solution_linear a b c = raising ValueError) ∧
  (∀ a b c e, raised (base_solution_linear a b c) = Some e →
              e = ValueError ∧ (a <= 0 ∨ b <= 0)) ∧
  (∀ a b c, 0 < a → 0 < b → 0 < c →
     raised (base_solution_linear a b c) = None ∧
     NoDup (yielded (base_solution_linear a b c)) ∧
     ∀ x y, (x, y) ∈ yielded (base_solution_linear a b c) ↔
            0 ≤ x ∧ 0 ≤ y ∧ a * x + b * y = c) ∧
  (∀ a b c, 0 < a → 0 < b → c / Z.gcd a (Z.gcd b c) = 0 →
     base_solution_linear a b c = finished [(0, 0)]).
Proof.
  split; [|split; [|split]].
  - intros a b c Hbad. unfold base_solution_linear. by rewrite decide_True.
  - intros a b c e. by rewrite base_solution_linear_raised.
  - intros a b c Ha Hb _.
    destruct (base_solution_linear_positive a b c Ha Hb) as (l & -> & Hnd & Hl). done.
  - intros a b c Ha Hb Hc. unfold base_solution_linear.
    rewrite decide_False by lia.
    destruct (gcd3_normalise a b c Ha) as (Hd & _).
    unfold py_floordiv. rewrite !decide_False by lia. cbn [result_bind].
    by rewrite decide_True.
Qed.

Lemma base_solution_linear_spec_witness :
  base_solution_linear 2 0 12 = raising ValueError ∧
  (raised (base_solution_linear 2 3 12) = None ∧
   NoDup (yielded (base_solution_linear 2 3 12)) ∧
   ∀ x y, (x, y) ∈ yielded (base_solution_linear 2 3 12) ↔
          0 ≤ x ∧ 0 ≤ y ∧ 2 * x + 3 * y = 12) ∧
  base_solution_linear 2 3 0 = finished [(0, 0)].
Proof.
  split; [|split].
  - apply (proj1 base_solution_linear_spec). lia.
  - apply (proj1 (proj2 (proj2 base_solution_linear_spec))); lia.
  - apply (proj2 (proj2 (proj2 base_solution_linear_spec))); [lia|lia|reflexivity].
Defined.

(** ** The solution cache of solve_linear_diop *)

Lemma trace_eta {A} (t : trace A) : raised t = None → t = finished (yielded t).
Proof. destruct t as [ys r]. simpl. by intros ->. Qed.

Lemma store_solutions_coherent cache total coeffs :
  cache_coherent cache →
  cache_coherent (store_solutions cache (total, coeffs) (diop_solutions total coeffs)).
Proof.
  intros Hc. unfold store_solutions.
  destruct (raised (diop_solutions total coeffs)) eqn:Hr; [done|].
  intros total' coeffs' solutions.
  destruct (decide ((total, coeffs) = (total', coeffs'))) as [[= <- <-]|Hne].
  - rewrite lookup_insert_eq. intros [= <-]. by apply trace_eta.
  - rewrite lookup_insert_ne by done. apply Hc.
Qed.

Lemma for_each_st_coherent {A B St} (P : St → Prop) (xs : list A)
    (body_st : A → St → trace B * St) (body : A → trace B) s :
  (∀ x s, P s → (body_st x s).1 = body x ∧ P (body_st x s).2) →
  P s →
  (for_each_st xs body_st s).1 = for_each xs body ∧ P (for_each_st xs body_st s).2.
Proof.
  intros Hbody. revert s. induction xs as [|x xs IH]; intros s Hs; [done|].
  simpl. destruct (Hbody x s Hs) as [Hx Hs'].
  destruct (body_st x s) as [[ys [e|]] s']; simpl in *; rewrite <- Hx; [done|].
  destruct (IH s' Hs') as [Hxs Hs''].
  destruct (for_each_st xs body_st s') as [[zs r] s'']. simpl in *.
  by rewrite <- Hxs.
Qed.

Lemma for_trace_st_coherent {A B St} (P : St → Prop) (g : trace A)
    (body_st : A → St → trace B * St) (body : A → trace B) s :
  (∀ x s, P s → (body_st x s).1 = body x ∧ P (body_st x s).2) →
  P s →
  (for_trace_st g body_st s).1 = for_trace g body ∧ P (for_trace_st g body_st s).2.
Proof.
  intros Hbody Hs. unfold for_trace_st, for_trace.
  destruct (for_each_st_coherent P (yielded g) body_st body s Hbody Hs) as [Heq HP].
  destruct (for_each_st (yielded g) body_st s) as [[ys [e|]] s']; simpl in *;
    by rewrite <- Heq.
Qed.

Theorem solve_linear_diop_cache_transparent cache total coeffs :
  cache_coherent cache →
  (solve_linear_diop cache total coeffs).1 = diop_solutions total coeffs ∧
  cache_coherent (solve_linear_diop cache total coeffs).2.
Proof.
  funelim (solve_linear_diop cache total coeffs); intros Hc.
  - simp diop_solutions. done.
  - simp diop_solutions. done.
  - cbn [fst snd]. split; [|done]. symmetry. by apply Hc.
  - cbn [fst snd]. assert (Hd : diop_solutions total [c0; c1] =
              trace_map pair_tuple (base_solution_linear c0 c1 total)) by by simp diop_solutions.
    rewrite <- Hd. split; [done|]. by apply store_solutions_coherent.
  - clear Heqcall.
    set (g := remainder_gcd_of c1 c2 rest') in *.
    set (new_coeffs := (λ c : Z, c / g) <$> c1 :: c2 :: rest') in *.
    match goal with
    | |- context [for_trace_st ?t ?b cache] =>
        destruct (for_trace_st_coherent cache_coherent t b
                    (fun '(x, y) =>
                       if decide (g = 0) then raising ZeroDivisionError
                       else trace_map (cons x) (diop_solutions y new_coeffs))
                    cache) as [Heq' Hcoh]; [|done|]
    end.
    { intros [x y] s Hs. case_decide; [done|].
      destruct (H (x, y) x y s ltac:(done) Hs) as [Hr Hs']. simpl. by rewrite Hr. }
    assert (Hdiop : diop_solutions total (c0 :: c1 :: c2 :: rest') =
              for_trace (base_solution_linear c0 g total)
                (fun '(x, y) =>
                   if decide (g = 0) then raising ZeroDivisionError
                   else trace_map (cons x) (diop_solutions y new_coeffs))).
    { by simp diop_solutions. }
    rewrite <- Hdiop in Heq'. cbn [fst snd]. split; [done|].
    rewrite Heq'. by apply store_solutions_coherent.
Qed.

Lemma cache_coherent_empty : cache_coherent ∅.
Proof. intros ???. by rewrite lookup_empty. Qed.

(** What [solve_linear_diop] yields for positive coefficients, on every cache
    it can meet, when the total is not negative or there are at least two
    coefficients: it ends normally, with exactly the tuples of non-negative
    integers that solve the equation, each once. *)
Lemma solve_linear_diop_nonnegative cache total coeffs :
  cache_coherent cache →
  Forall (fun c => 0 < c) coeffs → 0 ≤ total ∨ length coeffs ≠ 1%nat →
  ∃ l, (solve_linear_diop cache total coeffs).1 = finished l ∧ NoDup l ∧
       ∀ xs, xs ∈ l ↔ is_solution total coeffs xs.
Proof.
  intros Hc Hpos Htot.
  rewrite (proj1 (solve_linear_diop_cache_transparent cache total coeffs Hc)).
  by apply diop_solutions_spec.
Qed.

(** C2. The code at [total = -2] with the single coefficient [1]: it yields
    the tuple [(-2,)], which has a negative component, where the equation has
    no solution in non-negative integers and nothing should be yielded; with
    two coefficients the same total yields nothing. (For a total that is not
    negative, and for two or more coefficients, the enumeration is the one
    claimed: [solve_linear_diop_nonnegative]; the case of no coefficients is
    the last equation.) *)
Theorem solve_linear_diop_negative_total :
  (solve_linear_diop ∅ (-2) [1]).1 = finished [[-2]] ∧
  ¬ is_solution (-2) [1] [-2] ∧
  (∀ xs, ¬ is_solution (-2) [1] xs) ∧
  (solve_linear_diop ∅ (-2) [1; 1]).1 = finished [] ∧
  (∀ cache total,
     (solve_linear_diop cache total []).1 = if decide (total = 0) then finished [[]] else finished []).
Proof.
  assert (Hnone : ∀ xs, ¬ is_solution (-2) [1] xs).
  { intros xs (Hlen & Hnn & Hsum). destruct xs as [|x [|??]]; simpl in Hlen; try lia.
    apply Forall_cons in Hnn as [Hx _]. simpl in Hsum. lia. }
  split; [reflexivity|]. split; [apply Hnone|]. split; [exact Hnone|].
  split; [reflexivity|]. intros cache total. by simp solve_linear_diop.
Qed.

(** C9. With exactly one coefficient, equal to 0, [solve_linear_diop] raises
    [ZeroDivisionError] for every total and every cache, before yielding
    anything: it neither ends without a solution nor raises [ValueError]. *)
Theorem solve_linear_diop_zero_coefficient cache total :
  solve_linear_diop cache total [0] = (raising ZeroDivisionError, cache) ∧
  (solve_linear_diop cache total [0]).1 ≠ finished [] ∧
  (solve_linear_diop cache total [0]).1 ≠ raising ValueError.
Proof.
  assert (Heq : solve_linear_diop cache total [0] = (raising ZeroDivisionError, cache)).
  { by simp solve_linear_diop. }
  rewrite Heq. split; [done|]. split; discriminate.
Qed.

(** ** generator_chain *)

Section nested_loops_equations.
Context {Store Data Out : Type}.
Variable body : Data → Store → result (list Out * Store).

Lemma nested_loops_cons (factory : Data → @generator Store Data) factories' d s :
  nested_loops body (factory :: factories') d s =
  run_generator body factories' (factory d) s.
Proof. reflexivity. Qed.

Lemma run_generator_nil (factories' : list (Data → @generator Store Data)) s :
  run_generator body factories' [] s = ([], Ok s).
Proof. reflexivity. Qed.

Lemma run_generator_cons (factories' : list (Data → @generator Store Data)) r g' s :
  run_generator body factories' (r :: g') s =
  match r s with
  | Raise e => ([], Raise e)
  | Ok (d', s1) =>
      match nested_loops body factories' d' s1 with
      | (os, Raise e) => (os, Raise e)
      | (os, Ok s2) =>
          let '(os', r') := run_generator body factories' g' s2 in (os ++ os', r')
      end
  end.
Proof. reflexivity. Qed.

End nested_loops_equations.

Section chain_refinement.
Context {Store Data Out : Type}.
Variable factories : list (Data → @generator Store Data).
Variable body : Data → Store → result (list Out * Store).

Local Abbreviation loop := (generator_chain_loop factories body).

Lemma emit_emit (os os' : list Out) r : emit os (emit os' r) = emit (os ++ os') r.
Proof. unfold emit. simpl. by rewrite app_assoc. Qed.

Lemma emit_nil (r : list Out * completion) : emit [] r = r.
Proof. by destruct r. Qed.

(** One turn of the inner loop at a stage below the last. *)
Lemma loop_step_level fuel gens og rest d s factory :
  factories !! length gens = Some factory →
  loop (S fuel) (ChainFrame (gens ++ og :: rest) d (Z.of_nat (length gens))) s =
  match level_generator og factory d with
  | [] =>
      resume factories body fuel
        (ChainFrame (gens ++ None :: rest) d (Z.of_nat (length gens) - 1)) s
  | r :: g' =>
      match r s with
      | Raise e => ([], Raised e)
      | Ok (d', s') =>
          loop fuel (ChainFrame (gens ++ Some g' :: rest) d'
                                (Z.of_nat (length gens) + 1)) s'
      end
  end.
Proof.
  intros Hf. cbn [generator_chain_loop generator_index generators next_data].
  rewrite Nat2Z.id.
  pose proof (lookup_lt_Some _ _ _ Hf) as Hlt.
  rewrite decide_True by (unfold generator_count; lia).
  destruct (factories !! length gens) as [factory0|] eqn:Hf0.
  2: { exfalso. clear -Hf Hf0. congruence. }
  assert (factory0 = factory) as -> by (clear -Hf Hf0; congruence).
  rewrite list_lookup_middle by done.
  assert (Hins : ∀ x, <[length gens := x]> (gens ++ og :: rest) = gens ++ x :: rest).
  { intros x. rewrite insert_app_r_alt by lia. by rewrite Nat.sub_diag. }
  unfold level_generator, resume.
  cbn [generator_index].
  destruct og as [g|]; [destruct g as [|r g']|destruct (factory d) as [|r g']];
    [|destruct (r s) as [[d' s']|e]| |destruct (r s) as [[d' s']|e]];
    by rewrite ?Hins.
Qed.

(** The [yield], reached with every stage passed. *)
Lemma loop_step_yield fuel gens d s :
  length gens = length factories →
  loop (S fuel) (ChainFrame gens d (Z.of_nat (length gens))) s =
  match body d s with
  | Raise e => ([], Raised e)
  | Ok (os, s') =>
      emit os (loop fuel (ChainFrame gens d (Z.of_nat (length gens) - 1)) s')
  end.
Proof.
  intros Hlen. cbn [generator_chain_loop generator_index generators next_data].
  rewrite decide_False by (unfold generator_count; lia). done.
Qed.

Lemma run_generator_refines post' factory gens rest k :
  factories !! length gens = Some factory →
  k = Z.of_nat (length gens) →
  (∀ g' d s, refines factories body (ChainFrame (gens ++ Some g' :: rest) d (k + 1)) s
               (nested_loops body post' d s) (gens ++ Some g' :: rest) k) →
  ∀ g og d s, level_generator og factory d = g →
    refines factories body (ChainFrame (gens ++ og :: rest) d k) s
      (run_generator body post' g s) (gens ++ None :: rest) (k - 1).
Proof.
  intros Hf -> IHpost. induction g as [|r g' IHg]; intros og d s Hg; unfold refines.
  - rewrite run_generator_nil. exists 1%nat, d. intros fuel.
    change (1 + fuel)%nat with (S fuel).
    rewrite (loop_step_level _ _ _ _ _ _ factory Hf), Hg. by rewrite emit_nil.
  - rewrite run_generator_cons. destruct (r s) as [[d1 s1]|e] eqn:Hr.
    + destruct (IHpost g' d1 s1) as [n1 Hn1].
      destruct (nested_loops body post' d1 s1) as [os [s2|e]].
      * destruct Hn1 as [d2 Hn1].
        destruct (IHg (Some g') d2 s2 eq_refl) as [n2 Hn2].
        destruct (run_generator body post' g' s2) as [os' [s3|e]].
        -- destruct Hn2 as [d3 Hn2]. exists (S (n1 + n2)), d3. intros fuel.
           replace (S (n1 + n2) + fuel)%nat with (S (n1 + (n2 + fuel))) by lia.
           rewrite (loop_step_level _ _ _ _ _ _ factory Hf), Hg, Hr, Hn1.
           unfold resume at 1. cbn [generator_index]. rewrite decide_False by lia.
           by rewrite Hn2, emit_emit.
        -- exists (S (n1 + n2)). intros fuel.
           replace (S (n1 + n2) + fuel)%nat with (S (n1 + (n2 + fuel))) by lia.
           rewrite (loop_step_level _ _ _ _ _ _ factory Hf), Hg, Hr, Hn1.
           unfold resume at 1. cbn [generator_index]. rewrite decide_False by lia.
           by rewrite Hn2.
      * exists (S n1). intros fuel. change (S n1 + fuel)%nat with (S (n1 + fuel)).
        by rewrite (loop_step_level _ _ _ _ _ _ factory Hf), Hg, Hr, Hn1.
    + exists 1%nat. intros fuel. change (1 + fuel)%nat with (S fuel).
      by rewrite (loop_step_level _ _ _ _ _ _ factory Hf), Hg, Hr.
Qed.

Lemma loop_refines_nested post :
  factories ≠ [] →
  ∀ pre gens d s,
    factories = pre ++ post → length gens = length pre →
    refines factories body
      (ChainFrame (gens ++ replicate (length post) None) d (Z.of_nat (length gens))) s
      (nested_loops body post d s)
      (gens ++ replicate (length post) None) (Z.of_nat (length gens) - 1).
Proof.
  intros Hne. induction post as [|factory post' IH]; intros pre gens d s Hf Hlen.
  - cbn [length replicate nested_loops]. rewrite app_nil_r in *. subst pre.
    assert (0 < length gens)%nat by (rewrite Hlen; destruct factories; simpl; [done|lia]).
    exists 1%nat. destruct (body d s) as [[os s']|e] eqn:Hb.
    + exists d. intros fuel. change (1 + fuel)%nat with (S fuel).
      rewrite loop_step_yield, Hb by done.
      unfold resume. cbn [generator_index]. by rewrite decide_False by lia.
    + intros fuel. change (1 + fuel)%nat with (S fuel).
      by rewrite loop_step_yield, Hb by done.
  - rewrite nested_loops_cons. cbn [length replicate].
    assert (Hfac : factories !! length gens = Some factory).
    { rewrite Hf, Hlen. by rewrite list_lookup_middle. }
    apply (run_generator_refines post' factory gens _ _ Hfac eq_refl); [|done].
    intros g' d' s'.
    specialize (IH (pre ++ [factory]) (gens ++ [Some g']) d' s').
    rewrite <- !app_assoc in IH. simpl in IH.
    rewrite length_app in IH. simpl in IH.
    replace (Z.of_nat (length gens + 1)) with (Z.of_nat (length gens) + 1) in IH by lia.
    replace (Z.of_nat (length gens) + 1 - 1) with (Z.of_nat (length gens)) in IH by lia.
    apply IH; [done|]. rewrite length_app. simpl. lia.
Qed.

(** With enough fuel the loop over [generator_chain] ends, and it does what
    the nested loops do, store and exceptions included. *)
Lemma generator_chain_nested_loops initial_data s :
  ∃ n, ∀ fuel,
    generator_chain factories body (n + fuel) initial_data s =
    completion_of (nested_loops body factories initial_data s).
Proof.
  unfold generator_chain. case_decide as Hcount.
  - exists 0%nat. intros fuel.
    assert (factories = []) as ->.
    { unfold generator_count in Hcount. destruct factories; simpl in *; [done|lia]. }
    simpl. by destruct (body initial_data s) as [[os s']|e].
  - assert (Hne : factories ≠ []).
    { intros ->. by apply Hcount. }
    destruct (loop_refines_nested factories Hne [] [] initial_data s eq_refl eq_refl)
      as [n Hn].
    simpl in Hn. exists n.
    destruct (nested_loops body factories initial_data s) as [os [s'|e]]; simpl.
    + destruct Hn as [d' Hn]. intros fuel. rewrite Hn. unfold resume, emit. simpl.
      by rewrite app_nil_r.
    + done.
Qed.

End chain_refinement.

Lemma nested_loops_pure {A} (factories : list (A → list A)) (d : A) :
  nested_loops (fun d (s : unit) => Ok ([d], s))
    ((fun f d => pure_generator (f d)) <$> factories) d tt =
  (nested_for factories d, Ok tt).
Proof.
  revert d. induction factories as [|f factories IH]; intros d; [done|].
  rewrite fmap_cons, nested_loops_cons. cbn [nested_for].
  generalize (f d). intros l. induction l as [|x l IHl]; [done|].
  etrans; [apply (run_generator_cons (Store := unit))|].
  cbv beta. rewrite IH.
  change ((let '(os', r') :=
             run_generator (fun d (s : unit) => Ok ([d], s))
               ((fun f d => pure_generator (f d)) <$> factories) (pure_generator l) tt in
           (nested_for factories x ++ os', r')) =
          ((x :: l) ≫= nested_for factories, Ok tt)).
  by rewrite IHl.
Qed.

(** C5. For every initial datum and every list of factories, of any length,
    [generator_chain] ends and yields exactly the values of the nested loops
    [for d1 in f1(initial): for d2 in f2(d1): ... yield dn], in their order;
    with no factory it yields the initial datum once. The third part spells
    the nested loops out for four factories. The last part is the same
    equivalence for generators that work on a shared store and may raise, and
    for any loop body consuming the chain: the explicit loop does what the
    nested loops do, the exception that ends them included. *)
Theorem generator_chain_flattens_nested_loops {A} (initial_data : A)
    (factories : list (A → list A)) :
  (∃ n, ∀ fuel,
      generator_chain_list (n + fuel) initial_data factories =
      Some (nested_for factories initial_data)) ∧
  (∀ fuel, generator_chain_list fuel initial_data [] = Some [initial_data]) ∧
  (∀ f1 f2 f3 f4 : A → list A,
      nested_for [f1; f2; f3; f4] initial_data =
      d1 ← f1 initial_data; d2 ← f2 d1; d3 ← f3 d2; d4 ← f4 d3; [d4]) ∧
  (∀ (Store Out : Type) (stateful : list (A → @generator Store A))
     (body : A → Store → result (list Out * Store)) (s : Store),
      ∃ n, ∀ fuel,
        generator_chain stateful body (n + fuel) initial_data s =
        completion_of (nested_loops body stateful initial_data s)).
Proof.
  split; [|split; [done|split]].
  - destruct (generator_chain_nested_loops
                ((fun f d => pure_generator (f d)) <$> factories)
                (fun d (s : unit) => Ok ([d], s)) initial_data tt) as [n Hn].
    exists n. intros fuel. unfold generator_chain_list.
    by rewrite Hn, nested_loops_pure.
  - intros f1 f2 f3 f4. reflexivity.
  - intros Store Out stateful body s. apply generator_chain_nested_loops.
Qed.

(** ** commutative_sequence_variable_partition_iter *)

Section partition_spec.
Context {T : Type} `{Countable T}.
Implicit Types (subst frag : gmap (option string) (gmap T positive)).
Implicit Types (variables : list VariableWithCount).

Lemma multiplicity_empty (element : T) : multiplicity ∅ element = 0.
Proof. unfold multiplicity. by rewrite lookup_empty. Qed.

Lemma multiplicity_setitem (m : gmap T positive) value c element :
  0 ≤ c →
  multiplicity (multiset_setitem m value c) element =
  if decide (element = value) then c else multiplicity m element.
Proof.
  intros Hc. unfold multiplicity, multiset_setitem.
  case_decide as Hpos; case_decide as Heq; subst.
  - rewrite lookup_insert_eq. by rewrite Z2Pos.id.
  - by rewrite lookup_insert_ne.
  - rewrite lookup_delete_eq. lia.
  - by rewrite lookup_delete_ne.
Qed.

Lemma multiset_items_elem (values : gmap T positive) element c :
  (element, c) ∈ multiset_items values ↔
  ∃ p, values !! element = Some p ∧ c = Z.pos p.
Proof.
  unfold multiset_items. rewrite list_elem_of_fmap. split.
  - intros ([e p] & [= -> ->] & Hin). apply elem_of_map_to_list in Hin. eauto.
  - intros (p & Hp & ->). exists (element, p). split; [done|].
    by apply elem_of_map_to_list.
Qed.

Lemma multiset_items_multiplicity (values : gmap T positive) element c :
  (element, c) ∈ multiset_items values → c = multiplicity values element ∧ 0 < c.
Proof.
  rewrite multiset_items_elem. intros (p & Hp & ->).
  unfold multiplicity. rewrite Hp. lia.
Qed.

Lemma multiset_items_keys (values : gmap T positive) element :
  element ∉ (multiset_items values).*1 → multiplicity values element = 0.
Proof.
  intros Hnot. unfold multiplicity. destruct (values !! element) as [p|] eqn:Hp; [|done].
  exfalso. apply Hnot. apply list_elem_of_fmap. exists (element, Z.pos p).
  split; [done|]. apply multiset_items_elem. eauto.
Qed.

Lemma multiset_items_NoDup (values : gmap T positive) :
  NoDup (multiset_items values).*1.
Proof.
  unfold multiset_items. rewrite <- list_fmap_compose.
  rewrite (list_fmap_ext _ fst (map_to_list values));
    [apply NoDup_fst_map_to_list|]. by intros ? [??].
Qed.

Lemma accounted_ext variables subst subst' element :
  (∀ var, var ∈ variables →
     multiplicity (assigned subst' var) element = multiplicity (assigned subst var) element) →
  accounted variables subst' element = accounted variables subst element.
Proof.
  induction variables as [|var variables IH]; intros Hext; [done|].
  simpl. rewrite Hext by left. rewrite IH; [done|]. intros. apply Hext. by right.
Qed.

Lemma accounted_solution variables solution subst value :
  length solution = length variables →
  (∀ i var c, variables !! i = Some var → solution !! i = Some c →
     multiplicity (assigned subst var) value = c) →
  accounted variables subst value = weighted_sum (count <$> variables) solution.
Proof.
  revert solution. induction variables as [|var variables IH]; intros solution Hlen Hsol.
  - by destruct solution.
  - destruct solution as [|c solution]; [done|]. simpl.
    rewrite (Hsol 0%nat var c) by done. f_equal.
    apply IH; [by injection Hlen|]. intros i. apply (Hsol (S i)).
Qed.

Lemma assign_all_spec value variables solution subst :
  NoDup (name <$> variables) → length solution = length variables →
  present variables subst →
  ∃ subst', assign_all value (zip variables solution) subst = Ok subst' ∧
    (∀ i var c, variables !! i = Some var → solution !! i = Some c →
       ∃ m, subst !! name var = Some m ∧
            subst' !! name var = Some (multiset_setitem m value c)) ∧
    (∀ key, key ∉ name <$> variables → subst' !! key = subst !! key).
Proof.
  revert solution subst.
  induction variables as [|var variables IH]; intros solution subst Hnd Hlen Hpres.
  - destruct solution; [|done]. exists subst. by split.
  - destruct solution as [|c solution]; [done|].
    rewrite fmap_cons in Hnd. apply NoDup_cons in Hnd as [Hvar Hnd].
    destruct (Hpres var ltac:(left)) as [m Hm].
    simpl. unfold assign at 1. simpl. rewrite Hm. simpl.
    set (subst1 := <[name var := multiset_setitem m value c]> subst).
    assert (Hother : ∀ var', var' ∈ variables → subst1 !! name var' = subst !! name var').
    { intros var' Hin. apply lookup_insert_ne. intros Heq. apply Hvar.
      rewrite Heq. by apply list_elem_of_fmap_2. }
    destruct (IH solution subst1 Hnd) as (subst' & Hrun & Hset & Hkeep).
    { by injection Hlen. }
    { intros var' Hin. rewrite Hother by done. apply Hpres. by right. }
    exists subst'. split; [done|]. split.
    + intros [|i] var' c' Hv Hc; simpl in Hv, Hc.
      * injection Hv as <-. injection Hc as <-. exists m. split; [done|].
        rewrite Hkeep by done. apply lookup_insert_eq.
      * destruct (Hset i var' c' Hv Hc) as (m' & Hm' & Hs').
        exists m'. split; [|done]. rewrite <- Hother; [done|].
        by eapply list_elem_of_lookup_2.
    + intros key Hkey. apply not_elem_of_cons in Hkey as [Hne Hkey]. rewrite Hkeep by done.
      by apply lookup_insert_ne.
Qed.

Section levels.
Variable variables : list VariableWithCount.
Hypothesis names_NoDup : NoDup (name <$> variables).
Hypothesis names_given : Forall (fun var => is_Some (name var)) variables.
Hypothesis counts_positive : Forall (fun var => 0 < count var) variables.

Lemma None_not_name : None ∉ name <$> variables.
Proof.
  intros (var & Hname & Hin)%list_elem_of_fmap.
  rewrite Forall_forall in names_given. destruct (names_given var Hin) as [nm Hnm].
  congruence.
Qed.

Lemma _factory_spec value solution subst :
  length solution = length variables → Forall (fun c => 0 ≤ c) solution →
  present variables subst → subst !! None = None →
  ∃ subst', _factory value variables solution subst = Ok (tt, subst') ∧
    present variables subst' ∧ subst' !! None = None ∧
    agree_outside variables [value] subst subst' ∧
    accounted variables subst' value = weighted_sum (count <$> variables) solution.
Proof.
  intros Hlen Hnn Hpres Hnone.
  destruct (assign_all_spec value variables solution subst names_NoDup Hlen Hpres)
    as (subst' & Hrun & Hset & Hkeep).
  exists subst'. unfold _factory. rewrite Hrun. split; [done|].
  assert (Hassigned : ∀ i var c, variables !! i = Some var → solution !! i = Some c →
            assigned subst' var = multiset_setitem (assigned subst var) value c).
  { intros i var c Hv Hc. destruct (Hset i var c Hv Hc) as (m & Hm & Hm').
    unfold assigned. by rewrite Hm, Hm'. }
  assert (Hpair : ∀ var, var ∈ variables →
            ∃ i c, variables !! i = Some var ∧ solution !! i = Some c ∧ 0 ≤ c).
  { intros var (i & Hi)%list_elem_of_lookup_1.
    destruct (lookup_lt_is_Some_2 solution i) as [c Hc].
    { rewrite Hlen. by eapply lookup_lt_Some. }
    exists i, c. split; [done|]. split; [done|].
    rewrite Forall_forall in Hnn. apply Hnn. by eapply list_elem_of_lookup_2. }
  split; [|split; [|split]].
  - intros var Hin. destruct (Hpair var Hin) as (i & c & Hv & Hc & _).
    destruct (Hset i var c Hv Hc) as (m & _ & Hm'). by rewrite Hm'.
  - rewrite Hkeep; [done|apply None_not_name].
  - intros element Hne var Hin. destruct (Hpair var Hin) as (i & c & Hv & Hc & Hc0).
    rewrite (Hassigned i var c Hv Hc), multiplicity_setitem by done.
    rewrite decide_False; [done|]. intros ->. apply Hne. by left.
  - apply accounted_solution; [done|]. intros i var c Hv Hc.
    rewrite (Hassigned i var c Hv Hc), multiplicity_setitem.
    + by rewrite decide_True.
    + rewrite Forall_forall in Hnn. apply Hnn. by eapply list_elem_of_lookup_2.
Qed.

Lemma check_minimums_spec vars subst :
  present vars subst →
  ∃ valid, check_minimums vars subst = Ok valid ∧
           (valid = true → minimums_met vars subst).
Proof.
  induction vars as [|var vars IH]; intros Hpres.
  - exists true. split; [done|]. intros _ var Hin. by apply elem_of_nil in Hin.
  - destruct (Hpres var ltac:(left)) as [m Hm]. simpl. rewrite Hm.
    case_decide as Hlen.
    + exists false. by split.
    + destruct IH as (valid & -> & Hvalid).
      { intros var' Hin. apply Hpres. by right. }
      exists valid. split; [done|]. intros Hv var' [->|Hin]%elem_of_cons.
      * exists m. split; [done|lia].
      * by apply Hvalid.
Qed.

Lemma partition_body_spec subst :
  present variables subst → subst !! None = None →
  ∃ os, partition_body variables tt subst = Ok (os, subst) ∧
        Forall (fun o => o = subst ∧ minimums_met variables subst) os.
Proof.
  intros Hpres Hnone. unfold partition_body.
  destruct (check_minimums_spec variables subst Hpres) as (valid & -> & Hvalid).
  simpl. destruct valid.
  - rewrite decide_False by (rewrite Hnone; by intros [??]).
    eexists. split; [done|]. repeat constructor. by apply Hvalid.
  - eexists. split; [done|]. constructor.
Qed.

Lemma agree_outside_trans (keys1 keys2 keys : list T) s1 s2 s3 :
  keys1 ⊆ keys → keys2 ⊆ keys →
  agree_outside variables keys1 s1 s2 → agree_outside variables keys2 s2 s3 →
  agree_outside variables keys s1 s3.
Proof.
  intros H1 H2 H12 H23 element Hne var Hin.
  rewrite H23, H12; [done| |done| |done]; intros ?; apply Hne; auto.
Qed.

Lemma agree_outside_refl (keys : list T) s : agree_outside variables keys s s.
Proof. by intros ????. Qed.

Lemma levels_spec todo :
  NoDup todo.*1 → Forall (fun p => 0 ≤ p.2) todo →
  ∀ subst, present variables subst → subst !! None = None →
  ∃ os subst',
    nested_loops (partition_body variables) (level_factories variables todo) tt subst =
      (os, Ok subst') ∧
    present variables subst' ∧ subst' !! None = None ∧
    agree_outside variables todo.*1 subst subst' ∧
    Forall (fragment_ok variables todo subst) os.
Proof.
  induction todo as [|[value total] todo IH]; intros Hnd Htot subst Hpres Hnone.
  - destruct (partition_body_spec subst Hpres Hnone) as (os & Hbody & Hos).
    exists os, subst. cbn [level_factories fmap list_fmap nested_loops].
    rewrite Hbody. split; [done|]. split; [done|]. split; [done|].
    split; [apply agree_outside_refl|].
    eapply Forall_impl; [exact Hos|]. intros o [-> Hmin].
    split; [done|]. split; [apply agree_outside_refl|].
    intros ?? Hin. by apply elem_of_nil in Hin.
  - rewrite fmap_cons in Hnd. apply NoDup_cons in Hnd as [Hvalue Hnd].
    apply Forall_cons in Htot as [Htotal Htot]. simpl in Htotal.
    specialize (IH Hnd Htot).
    unfold level_factories. rewrite fmap_cons. fold (level_factories variables todo).
    rewrite nested_loops_cons. unfold _make_variable_generator_factory.
    destruct (diop_solutions_spec total (count <$> variables)) as (l & -> & _ & Hl).
    { by apply Forall_fmap. }
    { by left. }
    unfold finished. cbn [yielded raised]. rewrite app_nil_r.
    assert (Hsols : Forall (is_solution total (count <$> variables)) l).
    { apply Forall_forall. intros. by apply Hl. }
    clear Hl. revert subst Hpres Hnone.
    induction Hsols as [|solution l Hsol Hsols IHl]; intros subst Hpres Hnone.
    + exists [], subst. rewrite fmap_nil, run_generator_nil.
      repeat split; try done; apply agree_outside_refl.
    + destruct Hsol as (Hlen & Hnn & Hsum). rewrite length_fmap in Hlen.
      destruct (_factory_spec value solution subst Hlen Hnn Hpres Hnone)
        as (subst1 & Hrun & Hpres1 & Hnone1 & Hagree1 & Hacc1).
      destruct (IH subst1 Hpres1 Hnone1)
        as (os1 & subst2 & Hnest & Hpres2 & Hnone2 & Hagree2 & Hos1).
      destruct (IHl subst2 Hpres2 Hnone2)
        as (os2 & subst3 & Hgen & Hpres3 & Hnone3 & Hagree3 & Hos2).
      exists (os1 ++ os2), subst3.
      rewrite fmap_cons, run_generator_cons, Hrun, Hnest, Hgen.
      split; [done|]. split; [done|]. split; [done|].
      assert (Hagree12 : agree_outside variables (value :: todo.*1) subst subst2).
      { apply (agree_outside_trans [value] todo.*1 _ _ subst1); [keys_incl..|done|done]. }
      split.
      { apply (agree_outside_trans (value :: todo.*1) (value :: todo.*1) _ _ subst2);
          [keys_incl..|done|done]. }
      apply Forall_app. split.
      * eapply Forall_impl; [exact Hos1|]. intros o (Hmin & Hag & Hacc).
        split; [done|]. split.
        { apply (agree_outside_trans [value] todo.*1 _ _ subst1); [keys_incl..|done|done]. }
        intros value' m [[= -> ->]|Hin]%elem_of_cons; [|by apply Hacc].
        rewrite <- Hsum, <- Hacc1. apply accounted_ext. intros var Hin.
        by apply Hag.
      * eapply Forall_impl; [exact Hos2|]. intros o (Hmin & Hag & Hacc).
        split; [done|]. split; [|done].
        apply (agree_outside_trans (value :: todo.*1) (value :: todo.*1) _ _ subst2);
          [keys_incl..|done|done].
Qed.
End levels.

Lemma divide_items_spec (items : list (T * Z)) count (new_values : gmap T positive) :
  0 < count → NoDup items.*1 → Forall (fun p => 0 < p.2) items →
  (Exists (fun p => p.2 mod count ≠ 0) items →
     divide_items items count new_values = Ok None) ∧
  (Forall (fun p => p.2 mod count = 0) items →
     ∃ new, divide_items items count new_values = Ok (Some new) ∧
       (∀ element c, (element, c) ∈ items → multiplicity new element = c / count) ∧
       (∀ element, element ∉ items.*1 →
          multiplicity new element = multiplicity new_values element)).
Proof.
  intros Hcount. revert new_values.
  induction items as [|[element c] items IH]; intros new_values Hnd Hpos.
  - split; [by intros ?%Exists_nil|]. intros _. exists new_values.
    split; [done|]. split; [|done]. intros ?? Hin. by apply elem_of_nil in Hin.
  - rewrite fmap_cons in Hnd. apply NoDup_cons in Hnd as [Hel Hnd].
    apply Forall_cons in Hpos as [Hc Hpos]. simpl in Hc, Hel.
    cbn [divide_items]. unfold py_mod, py_floordiv.
    rewrite !decide_False by lia. cbn [result_bind].
    assert (Hq : 0 ≤ c / count) by (apply Z.div_pos; lia).
    specialize (IH (multiset_setitem new_values element (c / count)) Hnd Hpos).
    destruct IH as [IHbad IHgood]. split.
    + intros [Hbad|Hbad]%Exists_cons; simpl in *.
      * by rewrite decide_True.
      * case_decide; [done|]. by apply IHbad.
    + intros [Hdiv Hgood]%Forall_cons. simpl in Hdiv.
      rewrite decide_False by (intros ?; done).
      destruct (IHgood Hgood) as (new & -> & Hin & Hout).
      exists new. split; [done|]. split.
      * intros element' c' [[= -> ->]|Hin']%elem_of_cons; [|by apply Hin].
        rewrite Hout by done. rewrite multiplicity_setitem by done.
        by rewrite decide_True.
      * intros element' [Hne Hnot]%not_elem_of_cons. rewrite Hout by done.
        rewrite multiplicity_setitem by done. by rewrite decide_False.
Qed.

Lemma fragment_single nm (m : gmap T positive) cnt mn element :
  accounted [{| name := Some nm; count := cnt; minimum := mn |}]
    (fragment (Some nm) m) element = cnt * multiplicity m element.
Proof.
  simpl. unfold assigned. simpl. rewrite lookup_singleton_eq. simpl. lia.
Qed.

Lemma single_variable_spec (values : gmap T positive) var :
  0 < count var → is_Some (name var) →
  ∃ l, _commutative_single_variable_partiton_iter values var = finished l ∧
       Forall (fun frag => minimums_met [var] frag ∧ accounts_for [var] values frag) l ∧
       (1 < count var → (∃ element, multiplicity values element mod count var ≠ 0) →
        l = []).
Proof.
  destruct var as [[nm|] cnt mn]; simpl; intros Hcnt [? Hnm]; [|done].
  unfold _commutative_single_variable_partiton_iter.
  assert (Hmin : ∀ m : gmap T positive, mn ≤ multiset_len m →
            minimums_met [{| name := Some nm; count := cnt; minimum := mn |}]
                         (fragment (Some nm) m)).
  { intros m Hlen var ->%list_elem_of_singleton. exists m. simpl.
    by rewrite lookup_singleton_eq. }
  case_decide as Hone.
  - subst cnt. case_decide as Hlen.
    + eexists. split; [done|]. split; [|lia]. repeat constructor.
      * apply Hmin. lia.
      * intros element. etrans; [exact (fragment_single nm values 1 mn element)|lia].
    + eexists. split; [done|]. split; [constructor|done].
  - pose proof (divide_items_spec (multiset_items values) cnt ∅ Hcnt
                  (multiset_items_NoDup values)) as [Hbad Hgood].
    { apply Forall_forall. intros [element c] Hin.
      by apply multiset_items_multiplicity in Hin as [_ ?]. }
    destruct (decide (Forall (fun p => p.2 mod cnt = 0) (multiset_items values)))
      as [Hall|Hex].
    + destruct (Hgood Hall) as (new & -> & Hin & Hout).
      assert (Hacc : accounts_for [{| name := Some nm; count := cnt; minimum := mn |}]
                       values (fragment (Some nm) new)).
      { intros element. rewrite fragment_single.
        destruct (decide (element ∈ (multiset_items values).*1)) as [Hel|Hel].
        - apply list_elem_of_fmap in Hel as ([e c] & -> & Hel). simpl.
          rewrite (Hin _ _ Hel). rewrite Forall_forall in Hall.
          pose proof (Hall _ Hel) as Hmod. simpl in Hmod.
          apply multiset_items_multiplicity in Hel as [<- _].
          pose proof (Z.div_mod c cnt ltac:(lia)). lia.
        - rewrite (Hout _ Hel), multiplicity_empty, (multiset_items_keys _ _ Hel). lia. }
      assert (Hnone : (∃ element, multiplicity values element mod cnt ≠ 0) → False).
      { intros [element Hmod].
        destruct (decide (element ∈ (multiset_items values).*1)) as [Hel|Hel].
        - apply list_elem_of_fmap in Hel as ([e c] & -> & Hel).
          rewrite Forall_forall in Hall. pose proof (Hall _ Hel) as Hmod'.
          simpl in Hmod, Hmod'.
          apply multiset_items_multiplicity in Hel as [Heq _]. by rewrite <- Heq in Hmod.
        - rewrite (multiset_items_keys _ _ Hel) in Hmod. by rewrite Z.mod_0_l in Hmod by lia. }
      case_decide as Hlen.
      * eexists. split; [done|]. split; [|by intros _ ?%Hnone].
        repeat constructor; [|done]. apply Hmin. lia.
      * eexists. split; [done|]. split; [constructor|done].
    + apply not_Forall_Exists in Hex; [|intros ?; apply _].
      rewrite Hbad; [|eapply Exists_impl; [exact Hex|]; by intros ? ?].
      eexists. split; [done|]. split; [constructor|done].
Qed.

Lemma initial_substitution_spec variables :
  (∀ key, key ∈ name <$> variables →
     initial_substitution variables !! key = Some (∅ : gmap T positive)) ∧
  (∀ key, key ∉ name <$> variables →
     initial_substitution variables !! key = @None (gmap T positive)).
Proof.
  unfold initial_substitution.
  assert (Hgen : ∀ (d : gmap (option string) (gmap T positive)) key,
            fold_left (fun d var => <[name var := ∅]> d) variables d !! key =
            if decide (key ∈ name <$> variables) then Some ∅ else d !! key).
  { induction variables as [|var variables IH]; intros d key.
    - rewrite decide_False; [done|]. apply not_elem_of_nil.
    - cbn [fold_left]. rewrite IH, fmap_cons.
      destruct (decide (key ∈ name <$> variables)) as [Hin|Hnot].
      + rewrite decide_True; [done|]. by right.
      + destruct (decide (key = name var)) as [->|Hne].
        * rewrite lookup_insert_eq. rewrite decide_True; [done|]. by left.
        * rewrite lookup_insert_ne by done. rewrite decide_False; [done|].
          by intros [?|?]%elem_of_cons. }
  split; intros key Hkey; rewrite Hgen.
  - by rewrite decide_True.
  - rewrite decide_False by done. apply lookup_empty.
Qed.

Lemma accounted_zero variables subst element :
  (∀ var, var ∈ variables → multiplicity (assigned subst var) element = 0) →
  accounted variables subst element = 0.
Proof.
  induction variables as [|var variables IH]; intros Hz; [done|]. simpl.
  rewrite Hz by left. rewrite IH; [lia|]. intros. apply Hz. by right.
Qed.

(** C1, as amended. For every input multiset and every non-empty list of
    variables with names that are given and pairwise distinct and with
    positive counts, the partitioner ends normally, and every fragment it
    yields binds each variable to a sub-multiset of at least the variable's
    minimum size such that the sum over all variables of [count] times the
    bound sub-multiset is the input multiset; with a single variable of count
    greater than 1 and an element whose multiplicity the count does not
    divide, nothing is yielded. *)
Theorem partition_fragments_account (values : gmap T positive) variables :
  variables ≠ [] →
  Forall (fun var => is_Some (name var)) variables →
  NoDup (name <$> variables) →
  Forall (fun var => 0 < count var) variables →
  ∃ n frags,
    (∀ fuel,
        commutative_sequence_variable_partition_iter (n + fuel) values variables =
        (frags, Exhausted)) ∧
    Forall (fun frag => minimums_met variables frag ∧ accounts_for variables values frag)
      frags ∧
    (∀ var, variables = [var] → 1 < count var →
       (∃ element, multiplicity values element mod count var ≠ 0) → frags = []).
Proof.
  intros Hne Hnames Hnd Hcounts.
  destruct variables as [|var [|var' variables']]; [done| |].
  - apply Forall_cons in Hnames as [Hname _]. apply Forall_cons in Hcounts as [Hcount _].
    destruct (single_variable_spec values var Hcount Hname) as (l & Hl & Hall & Hnone).
    exists 0%nat, l. split; [|split; [done|]].
    + intros fuel. cbn [commutative_sequence_variable_partition_iter]. by rewrite Hl.
    + intros ? [= <-]. done.
  - set (variables := var :: var' :: variables') in *.
    set (todo := multiset_items values).
    pose proof (initial_substitution_spec variables) as [Hinit Hinit'].
    destruct (levels_spec variables Hnd Hnames Hcounts todo (multiset_items_NoDup values))
      with (subst := initial_substitution (T := T) variables)
      as (os & subst' & Hnest & _ & _ & _ & Hos).
    { apply Forall_forall. intros [element c] Hin.
      apply multiset_items_multiplicity in Hin as [_ ?]. simpl. lia. }
    { intros v Hin. rewrite Hinit; [done|]. by apply list_elem_of_fmap_2. }
    { apply Hinit'. by apply None_not_name. }
    destruct (generator_chain_nested_loops (level_factories variables todo)
                (partition_body variables) tt (initial_substitution variables))
      as [n Hn].
    rewrite Hnest in Hn. exists n, os. split; [|split].
    + intros fuel. apply Hn.
    + eapply Forall_impl; [exact Hos|]. intros frag (Hmin & Hag & Hacc).
      split; [done|]. intros element.
      destruct (decide (element ∈ todo.*1)) as [Hel|Hel].
      * apply list_elem_of_fmap in Hel as ([e c] & -> & Hel). cbn [fst].
        rewrite (Hacc _ _ Hel). by apply multiset_items_multiplicity in Hel as [-> _].
      * rewrite (multiset_items_keys _ _ Hel).
        transitivity (accounted variables (initial_substitution variables) element).
        { apply accounted_ext. intros v Hin. by apply Hag. }
        apply accounted_zero. intros v Hin. unfold assigned.
        rewrite Hinit by by apply list_elem_of_fmap_2. apply multiplicity_empty.
    + intros ? [=].
Qed.
End partition_spec.

Lemma partition_fragments_account_witness :
  ∃ n frags,
    (∀ fuel,
        commutative_sequence_variable_partition_iter (n + fuel) aaabbc
          [x_at_least_one; y_twice] = (frags, Exhausted)) ∧
    Forall (fun frag => minimums_met [x_at_least_one; y_twice] frag ∧
                        accounts_for [x_at_least_one; y_twice] aaabbc frag) frags ∧
    (∀ var, [x_at_least_one; y_twice] = [var] → 1 < count var →
       (∃ element, multiplicity aaabbc element mod count var ≠ 0) → frags = []).
Proof.
  apply (partition_fragments_account aaabbc [x_at_least_one; y_twice]).
  - discriminate.
  - repeat constructor; by eexists.
  - compute_done.
  - repeat constructor; simpl; lia.
Defined.

(** C1 as stated fails when two variables of the list share a name: the
    variables then share one entry of the dictionary. For the multiset [{a}]
    and the list [x, x] (count 1, minimum 0 each) the first fragment yielded
    binds [x] to [{a}], so that the sum over both variables holds [a] twice,
    and the second binds [x] to the empty multiset, so that [a] is lost. *)
Lemma partition_shared_name_counterexample :
  (∀ fuel,
      commutative_sequence_variable_partition_iter (5 + fuel) one_a [x_once; x_once] =
      ([ {[ Some "x" := one_a ]}; {[ Some "x" := ∅ ]} ], Exhausted)) ∧
  Forall (fun var => is_Some (name var)) [x_once; x_once] ∧
  multiplicity one_a "a" = 1 ∧
  accounted [x_once; x_once]
    ({[ Some "x" := one_a ]} : gmap (option string) (gmap string positive)) "a" = 2 ∧
  accounted [x_once; x_once]
    ({[ Some "x" := ∅ ]} : gmap (option string) (gmap string positive)) "a" = 0.
Proof.
  split; [intros fuel; vm_compute; reflexivity|].
  split; [repeat constructor; by eexists|].
  split; [reflexivity|]. split; reflexivity.
Qed.

(** C4. The code on the multiset [{a}] and the variables [x] and an anonymous
    one (count 1, minimum 0 each): the joint partitions are [x -> {}] (the
    anonymous variable takes [a]) and [x -> {a}]. The first is yielded, with
    the anonymous binding deleted from the shared dictionary; the next
    assignment to the anonymous variable then finds no entry and the
    iteration ends with [KeyError], so the second partition is never
    yielded. The nested loops that the chain flattens end the same way. *)
Theorem partition_anonymous_variable_raises :
  (∀ fuel,
      commutative_sequence_variable_partition_iter (3 + fuel) one_a
        [x_once; anonymous_once] =
      ([ {[ Some "x" := ∅ ]} ], Raised KeyError)) ∧
  (diop_solutions 1 [1; 1] = finished [[0; 1]; [1; 0]]) ∧
  completion_of
    (nested_loops (partition_body [x_once; anonymous_once])
       (level_factories [x_once; anonymous_once] (multiset_items one_a)) tt
       (initial_substitution [x_once; anonymous_once])) =
  ([ {[ Some "x" := ∅ ]} ], Raised KeyError).
Proof.
  split; [intros fuel; vm_compute; reflexivity|].
  split; vm_compute; reflexivity.
Qed.

(** ** substitute *)

Lemma substitute_fold substitution operands any_replaced new_operands :
  fold_left (fun '(any_replaced, new_operands) operand =>
               let '(result, replaced) := substitute operand substitution in
               ((if replaced then true else any_replaced),
                extend_operands new_operands result))
            operands (any_replaced, new_operands)
  = (any_replaced || existsb (fun o => (substitute o substitution).2) operands,
     new_operands ++ substituted_operands substitution operands).
Proof.
  revert any_replaced new_operands.
  induction operands as [|o operands IH]; intros any new; simpl.
  - by rewrite orb_false_r, app_nil_r.
  - destruct (substitute o substitution) as [r replaced] eqn:Ho.
    rewrite IH. unfold substituted_operands; simpl.
    f_equal.
    + destruct replaced, any; reflexivity.
    + destruct r; simpl; by rewrite <- app_assoc.
Qed.

Lemma substitute_operation head operands substitution :
  substitute (Operation head operands) substitution =
  if existsb (fun o => (substitute o substitution).2) operands
  then (Single (from_args head (substituted_operands substitution operands)), true)
  else (Single (Operation head operands), false).
Proof.
  simpl. rewrite substitute_fold. reflexivity.
Qed.

Lemma substitute_unbound expression substitution :
  (∀ name, name ∈ variable_names expression → substitution !! name = None) →
  substitute expression substitution = (Single expression, false).
Proof.
  induction expression as [name|name|head operands IH] using Expression_ind; intros Hfree.
  - reflexivity.
  - simpl. rewrite Hfree; [done|]. simpl. set_solver.
  - rewrite substitute_operation.
    assert (Hex : existsb (fun o => (substitute o substitution).2) operands = false).
    { apply not_true_is_false. intros Hex. apply existsb_exists in Hex as (o & Hin & Ho).
      apply list_elem_of_In in Hin.
      rewrite Forall_forall in IH. rewrite (IH o Hin) in Ho; [done|].
      intros name Hname. apply Hfree. simpl.
      apply list_elem_of_join. exists (variable_names o). split; [done|].
      apply list_elem_of_fmap. by exists o. }
    by rewrite Hex.
Qed.

Lemma substituted_operands_app substitution l1 l2 :
  substituted_operands substitution (l1 ++ l2) =
  substituted_operands substitution l1 ++ substituted_operands substitution l2.
Proof. unfold substituted_operands. by rewrite bind_app. Qed.

(** C7. If no variable that occurs in the expression has its name among the
    keys of the substitution, [substitute] returns the expression it was given
    and [false]; a variable among the operands of an operation that is bound
    to a sequence has the elements of the sequence spliced in its place in the
    rebuilt operand list; and
    [substitute(f(x, c), {x: [a, b]}) = (f(a, b, c), True)]. In this embedding
    "the identical object" is the equal value. *)
Theorem substitute_spec :
  (∀ expression substitution,
      (∀ name, name ∈ variable_names expression → substitution !! name = None) →
      substitute expression substitution = (Single expression, false)) ∧
  (∀ head before after name es substitution,
      substitution !! name = Some (Sequence es) →
      substitute (Operation head (before ++ Variable_ name :: after)) substitution =
      (Single (from_args head (substituted_operands substitution before ++ es ++
                               substituted_operands substitution after)), true)) ∧
  substitute (Operation "f" [Variable_ "x"; Symbol "c"])
             {[ "x" := Sequence [Symbol "a"; Symbol "b"] ]} =
  (Single (from_args "f" [Symbol "a"; Symbol "b"; Symbol "c"]), true).
Proof.
  split; [exact substitute_unbound|]. split; [|reflexivity].
  intros head before after name es substitution Hname.
  rewrite substitute_operation.
  rewrite existsb_app. simpl. rewrite Hname. simpl. rewrite orb_true_r.
  rewrite substituted_operands_app.
  change (Variable_ name :: after) with ([Variable_ name] ++ after).
  rewrite substituted_operands_app.
  unfold substituted_operands at 2. simpl. rewrite Hname. simpl. by rewrite app_nil_r.
Qed.


Lemma substitute_spec_witness :
  substitute (Operation "f" [Variable_ "x"; Symbol "c"])
             {[ "y" := Single (Symbol "a") ]} =
    (Single (Operation "f" [Variable_ "x"; Symbol "c"]), false) ∧
  substitute (Operation "f" ([Symbol "c"] ++ Variable_ "x" :: [Variable_ "y"]))
             {[ "x" := Sequence [Symbol "a"; Symbol "b"] ]} =
    (Single (from_args "f" [Symbol "c"; Symbol "a"; Symbol "b"; Variable_ "y"]), true).
Proof.
  split.
  - apply (proj1 substitute_spec). intros name Hname.
    apply lookup_singleton_ne. intros <-.
    change ("y" ∈ ["x"]) in Hname. by apply list_elem_of_singleton in Hname.
  - apply (proj1 (proj2 substitute_spec) "f" [Symbol "c"] [Variable_ "y"] "x"
             [Symbol "a"; Symbol "b"]).
    reflexivity.
Defined.

(** ** replace *)

Lemma py_index_spec {A} (l : list A) (i : Z) (n : nat) :
  py_index l i = Ok n ↔
  (0 ≤ i < py_len l ∧ n = Z.to_nat i) ∨ (- py_len l ≤ i < 0 ∧ n = Z.to_nat (py_len l + i)).
Proof.
  unfold py_index. repeat case_decide; split; intros H'; try (inversion H'; subst; lia);
    try (destruct H' as [[? ->]|[? ->]]; (reflexivity || lia)).
Qed.



Lemma py_getitem_spec {A} (l : list A) (i : Z) (a : A) :
  py_getitem l i = Ok a ↔ ∃ n, py_index l i = Ok n ∧ l !! n = Some a.
Proof.
  unfold py_getitem. destruct (py_index l i) as [n|ex] eqn:Hi; simpl.
  - destruct (l !! n) as [a'|] eqn:Hn.
    + split; [intros [= ->]; eauto|]. intros (n' & [= <-] & Hn'). congruence.
    + split; [done|]. intros (n' & [= <-] & Hn'). congruence.
  - split; [done|]. by intros (n' & ? & _).
Qed.




Lemma replace_operation head operands pos position' replacement n operand :
  py_index operands pos = Ok n → operands !! n = Some operand →
  replace (Operation head operands) (pos :: position') replacement =
  subexpr ←? replace operand position' replacement;
  match subexpr with
  | Sequence es =>
      Ok (Single (from_args head
                    (py_slice_to operands pos ++ es ++ py_slice_from operands (pos + 1))))
  | Single e => Ok (Single (from_args head (<[n := e]> operands)))
  end.
Proof.
  intros Hi Hn. simpl.
  assert (Hget : py_getitem operands pos = Ok operand).
  { apply py_getitem_spec. eauto. }
  case_decide as Hge.
  { apply py_index_spec in Hi. lia. }
  rewrite Hget. simpl. destruct (replace operand position' replacement) as [[e|es]|ex]; simpl; try done.
  unfold py_setitem. by rewrite Hi.
Qed.






(** C10. On an Operation with at least one operand, [operands ++ [last]], and
    a single expression as replacement, [replace] with position [(-1,)] raises
    nothing and returns the operation with its last operand replaced. *)
Theorem replace_minus_one_single head operands last e :
  replace (Operation head (operands ++ [last])) [-1] (Single e) =
  Ok (Single (from_args head (operands ++ [e]))).
Proof.
  assert (Hi : py_index (operands ++ [last]) (-1) = Ok (length operands)).
  { apply py_index_spec. right. unfold py_len. rewrite length_app. simpl. lia. }
  rewrite (replace_operation _ _ _ _ _ (length operands) last Hi).
  - simpl. do 3 f_equal.
    rewrite insert_app_r_alt by lia. by rewrite Nat.sub_diag.
  - by rewrite lookup_app_r, Nat.sub_diag by lia.
Qed.

(** * Further properties *)

(** ** fixed_integer_vector_iter *)

Lemma within_sum_le max_vector v :
  within max_vector v → 0 ≤ vector_sum v ≤ vector_sum max_vector.
Proof. induction 1; unfold vector_sum in *; simpl; lia. Qed.

Lemma cons_bind_sorted (i : Z) (l : list (list Z)) :
  StronglySorted lex_lt l → StronglySorted lex_lt (l ≫= λ vec, [i :: vec]).
Proof.
  induction 1 as [|v l Hl IHl Hall]; [constructor|].
  change (StronglySorted lex_lt ([i :: v] ++ (l ≫= λ vec, [i :: vec]))).
  apply StronglySorted_app. split; [|split; [repeat constructor|done]].
  intros a b ->%list_elem_of_singleton (w & ->%list_elem_of_singleton & Hw)%list_elem_of_bind.
  simpl. right. split; [done|]. rewrite Forall_forall in Hall. by apply Hall.
Qed.

Lemma fixed_integer_vector_iter_members max_vector total :
  StronglySorted lex_lt (fixed_integer_vector_iter max_vector total) ∧
  ∀ v, v ∈ fixed_integer_vector_iter max_vector total ↔
       within max_vector v ∧ vector_sum v = total.
Proof.
  revert total. induction max_vector as [|max0 rest IH]; intros vs.
  - simpl. case_decide as Hvs.
    + split; [repeat constructor|]. intros v. rewrite list_elem_of_singleton. split.
      * intros ->. split; [constructor|]. by subst.
      * intros [Hw _]. by inversion Hw.
    + split; [constructor|]. intros v. split; [by intros ?%elem_of_nil|].
      intros [Hw Hsum]. inversion Hw; subst. done.
  - cbn [fixed_integer_vector_iter].
    change (foldr Z.add 0 (max0 :: rest)) with (max0 + vector_sum rest).
    set (total := max0 + vector_sum rest).
    case_decide as Hle.
    + unfold py_range. split.
      * apply (StronglySorted_bind _ Z.lt); [apply seqZ_StronglySorted| |].
        -- intros j _. apply cons_bind_sorted, IH.
        -- intros i j a b _ _ Hij (v & ->%list_elem_of_singleton & _)%list_elem_of_bind
             (w & ->%list_elem_of_singleton & _)%list_elem_of_bind.
           simpl. by left.
      * intros v. rewrite list_elem_of_bind. split.
        -- intros (j & (w & ->%list_elem_of_singleton & Hw)%list_elem_of_bind & Hj%elem_of_seqZ).
           apply IH in Hw as [Hw Hsum]. split.
           ++ constructor; [lia|done].
           ++ unfold vector_sum in *. simpl. lia.
        -- intros [Hw Hsum]. inversion Hw as [|j m0 w r Hj Hwr]; subst.
           pose proof (within_sum_le _ _ Hwr) as Hb.
           change (vector_sum (j :: w)) with (j + vector_sum w) in *.
           exists j. split; [|apply elem_of_seqZ; lia].
           apply list_elem_of_bind. exists w. split; [by left|].
           apply IH. split; [done|lia].
    + split; [constructor|]. intros v. split; [by intros ?%elem_of_nil|].
      intros [Hw Hsum]. pose proof (within_sum_le _ _ Hw) as Hb.
      subst total. change (vector_sum (max0 :: rest)) with (max0 + vector_sum rest) in Hb.
      lia.
Qed.

Lemma lex_lt_asym u v : lex_lt u v → lex_lt v u → False.
Proof.
  revert v. induction u as [|x u IH]; intros [|y v]; simpl; try tauto.
  intros [?|[-> ?]] [?|[? ?]]; try lia. eauto.
Qed.

Lemma sorted_lex_unique (l1 l2 : list (list Z)) :
  StronglySorted lex_lt l1 → StronglySorted lex_lt l2 →
  (∀ v, v ∈ l1 ↔ v ∈ l2) → l1 = l2.
Proof.
  intros H1 H2 Hmem. apply (StronglySorted_unique_strong lex_lt); [|done|done|].
  - intros u v _ _ Huv Hvu. destruct (lex_lt_asym u v Huv Hvu).
  - apply NoDup_Permutation; [by apply StronglySorted_lex_NoDup..|done].
Qed.

Lemma nonneg_elem_le_sum (v : list Z) x :
  Forall (fun y => 0 ≤ y) v → x ∈ v → x ≤ vector_sum v.
Proof.
  induction 1 as [|y v Hy Hv IH]; [by intros ?%elem_of_nil|].
  assert (0 ≤ vector_sum v) by (clear -Hv; induction Hv; unfold vector_sum in *; simpl; lia).
  change (vector_sum (y :: v)) with (y + vector_sum v).
  intros [->|Hin]%elem_of_cons; [lia|]. specialize (IH Hin). lia.
Qed.

(** X1. For every maximum vector and every sum, negative entries and a
    negative sum included, [fixed_integer_vector_iter] yields exactly the
    vectors of the length of [max_vector] whose components lie between 0 and
    the component of [max_vector] and sum to [vector_sum], in strictly
    increasing lexicographic order, hence each once. *)
Theorem fixed_integer_vector_iter_enumerates max_vector total :
  StronglySorted lex_lt (fixed_integer_vector_iter max_vector total) ∧
  NoDup (fixed_integer_vector_iter max_vector total) ∧
  ∀ v, v ∈ fixed_integer_vector_iter max_vector total ↔
       length v = length max_vector ∧ within max_vector v ∧ vector_sum v = total.
Proof.
  destruct (fixed_integer_vector_iter_members max_vector total) as [Hsorted Hmem].
  split; [done|]. split; [by apply StronglySorted_lex_NoDup|].
  intros v. rewrite Hmem. split.
  - intros [Hw Hsum]. split; [|done]. by eapply Forall2_length.
  - by intros (_ & Hw & Hsum).
Qed.

(** X2. With every maximum equal to the sum, the bound does not bind:
    for a total and a number of parts that are not negative,
    [fixed_integer_vector_iter([total] * parts, total)] yields the same tuples
    in the same order as [integer_partition_vector_iter(total, parts)]. *)
Theorem fixed_integer_vector_iter_unbounded total parts :
  0 ≤ total → 0 ≤ parts →
  fixed_integer_vector_iter (replicate (Z.to_nat parts) total) total =
  integer_partition_vector_iter total parts.
Proof.
  intros Htotal Hparts.
  destruct (decide (parts = 0)) as [->|Hne].
  - simpl. by simp integer_partition_vector_iter.
  - destruct (fixed_integer_vector_iter_members (replicate (Z.to_nat parts) total) total)
      as [Hs1 Hm1].
    destruct (integer_partition_vector_iter_spec total parts ltac:(lia) ltac:(lia))
      as [Hs2 Hm2].
    apply sorted_lex_unique; [done|done|]. intros v. rewrite Hm1, Hm2.
    unfold within, is_partition_vector. split.
    + intros [Hw Hsum]. split; [|split; [|done]].
      * apply Forall2_length in Hw. rewrite length_replicate in Hw. lia.
      * eapply Forall2_Forall_l; [exact Hw|]. apply Forall_forall. intros; lia.
    + intros (Hlen & Hnn & Hsum). split; [|done].
      apply Forall2_same_length_lookup_2.
      * rewrite length_replicate. lia.
      * intros i x m Hx [-> _]%lookup_replicate_1. split.
        -- rewrite Forall_forall in Hnn. apply Hnn. by eapply list_elem_of_lookup_2.
        -- rewrite <- Hsum. apply nonneg_elem_le_sum; [done|]. by eapply list_elem_of_lookup_2.
Qed.

Lemma fixed_integer_vector_iter_unbounded_witness :
  fixed_integer_vector_iter (replicate (Z.to_nat 2) 3) 3 =
  integer_partition_vector_iter 3 2.
Proof. apply (fixed_integer_vector_iter_unbounded 3 2); lia. Defined.

(** ** integer_partition_vector_iter *)

(** X3. Unless the total is negative and there is exactly one part,
    [integer_partition_vector_iter] yields exactly the tuples of [parts]
    non-negative integers that sum to [total], in strictly increasing
    lexicographic order: none for a negative number of parts, and for no
    parts the empty tuple when the total is 0. *)
Theorem integer_partition_vector_iter_enumerates total parts :
  0 ≤ total ∨ parts ≠ 1 →
  StronglySorted lex_lt (integer_partition_vector_iter total parts) ∧
  ∀ v, v ∈ integer_partition_vector_iter total parts ↔ is_partition_vector total parts v.
Proof.
  intros Htotal.
  destruct (integer_partition_vector_iter_no_parts total parts) as [Hneg Hzero].
  destruct (decide (1 ≤ parts)) as [Hparts|Hparts].
  { by apply integer_partition_vector_iter_spec. }
  destruct (decide (parts = 0)) as [->|Hne].
  - rewrite Hzero by done. unfold is_partition_vector. case_decide as Ht.
    + split; [repeat constructor|]. intros v. rewrite list_elem_of_singleton. split.
      * intros ->. by subst.
      * intros (Hlen & _ & _). destruct v; [done|]. simpl in Hlen. lia.
    + split; [constructor|]. intros v. split; [by intros ?%elem_of_nil|].
      intros (Hlen & _ & Hsum). destruct v; [done|]. simpl in Hlen. lia.
  - rewrite Hneg by lia. split; [constructor|]. intros v.
    split; [by intros ?%elem_of_nil|]. intros (Hlen & _ & _). lia.
Qed.

Lemma integer_partition_vector_iter_enumerates_witness :
  StronglySorted lex_lt (integer_partition_vector_iter 5 2) ∧
  ∀ v, v ∈ integer_partition_vector_iter 5 2 ↔ is_partition_vector 5 2 v.
Proof. apply (integer_partition_vector_iter_enumerates 5 2). left. lia. Defined.

Lemma binomial_0_r n : binomial n 0 = 1%nat.
Proof. by destruct n. Qed.

Lemma binomial_above n k : (n < k)%nat → binomial n k = 0%nat.
Proof.
  revert k. induction n as [|n IH]; intros [|k] Hlt; try lia; [done|].
  simpl. rewrite !IH by lia. done.
Qed.

Lemma binomial_diag n : binomial n n = 1%nat.
Proof.
  induction n as [|n IH]; [done|]. simpl. rewrite IH, binomial_above by lia. done.
Qed.

Lemma length_bind_sum {A B} (f : A → list B) (l : list A) :
  length (l ≫= f) = sum_list_with (fun x => length (f x)) l.
Proof.
  induction l as [|x l IH]; [done|].
  rewrite bind_cons, length_app, IH. done.
Qed.

Lemma sum_list_with_ext {A} (f g : A → nat) (l : list A) :
  (∀ x, x ∈ l → f x = g x) → sum_list_with f l = sum_list_with g l.
Proof.
  induction l as [|x l IH]; intros Hfg; [done|]. simpl.
  rewrite (Hfg x) by left. rewrite IH; [done|]. intros. apply Hfg. by right.
Qed.

Lemma sum_list_with_fmap {A B} (f : B → nat) (h : A → B) (l : list A) :
  sum_list_with f (h <$> l) = sum_list_with (fun x => f (h x)) l.
Proof.
  induction l as [|x l IH]; [done|].
  rewrite fmap_cons. cbn [sum_list_with]. by rewrite IH.
Qed.

Lemma sum_list_reversed (g : nat → nat) t :
  sum_list_with (fun i => g (t - i)%nat) (seq 0 (S t)) = sum_list_with g (seq 0 (S t)).
Proof.
  induction t as [|t IH]; [done|].
  transitivity (g (S t) + sum_list_with (fun i => g (t - i)%nat) (seq 0 (S t)))%nat.
  - change (seq 0 (S (S t))) with (0%nat :: seq 1 (S t)).
    rewrite <- seq_shift. cbn [sum_list_with]. by rewrite sum_list_with_fmap.
  - rewrite IH, (seq_S (S t)), sum_list_with_app. simpl. lia.
Qed.

Lemma hockey_stick t p :
  sum_list_with (fun j => binomial (j + p) p) (seq 0 (S t)) = binomial (t + S p) (S p).
Proof.
  induction t as [|t IH].
  - simpl. rewrite Nat.add_0_r, binomial_diag, binomial_above by lia. done.
  - rewrite seq_S, sum_list_with_app, IH. simpl.
    replace (t + S p)%nat with (S (t + p)) by lia. simpl. lia.
Qed.

(** X4. For a total that is not negative and at least one part,
    [integer_partition_vector_iter] yields as many tuples as there are ways to
    choose [parts - 1] out of [total + parts - 1]: the binomial coefficient.
    The statement counts the parts from 1, as [S parts]. *)
Theorem integer_partition_vector_iter_count (total parts : nat) :
  length (integer_partition_vector_iter (Z.of_nat total) (Z.of_nat (S parts))) =
  binomial (total + parts) parts.
Proof.
  revert total. induction parts as [|parts IH]; intros total.
  - simp integer_partition_vector_iter. simpl. by rewrite binomial_0_r.
  - simp integer_partition_vector_iter.
    destruct (decide (Z.of_nat (S (S parts)) < 0)) as [?|?]; [lia|].
    cbn [integer_partition_vector_iter_unfold_clause_1].
    destruct (decide (Z.of_nat (S (S parts)) = 0)) as [?|?]; [lia|].
    cbn [integer_partition_vector_iter_unfold_clause_1_clause_2].
    destruct (decide (Z.of_nat (S (S parts)) = 1)) as [?|?]; [lia|].
    cbn [integer_partition_vector_iter_unfold_clause_1_clause_2_clause_2].
    rewrite length_bind_sum. unfold py_range, seqZ.
    replace (Z.to_nat (Z.of_nat total + 1 - 0)) with (S total) by lia.
    rewrite sum_list_with_fmap.
    rewrite <- hockey_stick, <- sum_list_reversed.
    apply sum_list_with_ext. intros i Hi%elem_of_seq.
    rewrite length_bind_sum.
    rewrite (sum_list_with_ext _ (fun _ => 1%nat)) by done.
    replace (Z.of_nat total - (Z.of_nat (total - i) + 0)) with (Z.of_nat i) by lia.
    replace (Z.of_nat (S (S parts)) - 1) with (Z.of_nat (S parts)) by lia.
    rewrite <- IH.
    generalize (integer_partition_vector_iter (Z.of_nat i) (Z.of_nat (S parts))).
    intros l. induction l; simpl; lia.
Qed.

(** ** extended_euclid *)

(** X5. For all integers [a] and [b], of either sign and zero included,
    [extended_euclid] returns [x], [y] and [d] with [a * x + b * y = d], and
    [d] is the greatest common divisor of [a] and [b] up to its sign. *)
Theorem extended_euclid_identity a b :
  let '(x, y, d) := extended_euclid a b in
  a * x + b * y = d ∧ Z.abs d = Z.gcd a b.
Proof.
  funelim (extended_euclid a b).
  - subst. rewrite Z.gcd_0_r. lia.
  - destruct (extended_euclid b (a mod b)) as [[x0 y0] d]. simpl.
    destruct H as [Hbez Hgcd]. split.
    + pose proof (Z.div_mod a b ltac:(lia)). nia.
    + rewrite Hgcd, (Z.gcd_comm b), Z.gcd_mod by lia. apply Z.gcd_comm.
Qed.

(** X6. For positive [a] and [b] the coefficients that [extended_euclid]
    returns are a minimal pair: [|x| <= b / d] and [|y| <= a / d], with
    [d = gcd(a, b)]. *)
Theorem extended_euclid_minimal a b :
  0 < a → 0 < b →
  let '(x, y, d) := extended_euclid a b in
  d = Z.gcd a b ∧ Z.abs x ≤ b / d ∧ Z.abs y ≤ a / d.
Proof.
  funelim (extended_euclid a b); intros Ha Hb; [lia|].
  pose proof (Z.mod_pos_bound a b ltac:(lia)) as Hmod.
  pose proof (Z.div_mod a b ltac:(lia)) as Hdm.
  assert (Hq : 0 ≤ a / b) by (apply Z.div_pos; lia).
  assert (Hgab : Z.gcd b (a mod b) = Z.gcd a b).
  { rewrite (Z.gcd_comm b), Z.gcd_mod by lia. apply Z.gcd_comm. }
  destruct (decide (a mod b = 0)) as [Hz|Hnz].
  - clear H. rewrite Hz in *.
    assert (He : extended_euclid b 0 = (1, 0, b)) by (by simp extended_euclid).
    rewrite He. simpl. rewrite Z.gcd_0_r, Z.abs_eq in Hgab by lia.
    split; [done|]. rewrite Z.div_same by lia.
    assert (1 ≤ a / b) by nia. lia.
  - specialize (H Hb ltac:(lia)).
    destruct (extended_euclid b (a mod b)) as [[x0 y0] d]. simpl.
    destruct H as (Hd & Hx0 & Hy0). rewrite Hgab in Hd. split; [done|].
    assert (Hdpos : 0 < d).
    { pose proof (Z.gcd_nonneg a b). destruct (decide (d = 0)) as [Hd0|]; [|lia].
      rewrite Hd0 in Hd. symmetry in Hd. apply Z.gcd_eq_0_l in Hd. lia. }
    assert (Hda : (d | a)) by (rewrite Hd; apply Z.gcd_divide_l).
    assert (Hdb : (d | b)) by (rewrite Hd; apply Z.gcd_divide_r).
    assert (Hdr : (d | a mod b)).
    { rewrite Hd, <- Hgab. apply Z.gcd_divide_r. }
    pose proof (exact_quotient d a Hdpos Hda) as Ea.
    pose proof (exact_quotient d b Hdpos Hdb) as Eb.
    pose proof (exact_quotient d (a mod b) Hdpos Hdr) as Er.
    split; [lia|].
    assert (Hsum : a / d = (a mod b) / d + a / b * (b / d)).
    { apply (Z.mul_reg_l _ _ d); [lia|]. nia. }
    assert (0 ≤ b / d) by (apply Z.div_pos; lia).
    rewrite Hsum.
    assert (Z.abs (a / b * y0) ≤ a / b * (b / d)).
    { rewrite Z.abs_mul, (Z.abs_eq (a / b)) by lia. nia. }
    lia.
Qed.

Lemma extended_euclid_minimal_witness :
  let '(x, y, d) := extended_euclid 42 12 in
  d = Z.gcd 42 12 ∧ Z.abs x ≤ 12 / d ∧ Z.abs y ≤ 42 / d.
Proof. apply (extended_euclid_minimal 42 12); lia. Defined.

(** ** base_solution_linear *)

Lemma ascend_sorted a b x y : StronglySorted x_increasing (ascend a b x y).
Proof.
  funelim (ascend a b x y); [|constructor].
  apply StronglySorted_app. split; [|split; [|done]].
  - intros p [x' y'] Hhd Htl. case_decide; [|by apply elem_of_nil in Hhd].
    apply list_elem_of_singleton in Hhd as ->.
    apply ascend_elem in Htl as (t & ? & -> & -> & ? & ?). unfold x_increasing. simpl. nia.
  - case_decide; repeat constructor.
Qed.

Lemma descend_sorted a b x y : StronglySorted x_decreasing (descend a b x y).
Proof.
  funelim (descend a b x y); [|constructor].
  apply StronglySorted_app. split; [|split; [|done]].
  - intros p [x' y'] Hhd Htl. case_decide; [|by apply elem_of_nil in Hhd].
    apply list_elem_of_singleton in Hhd as ->.
    apply descend_elem in Htl as (t & ? & -> & -> & ? & ?). unfold x_decreasing. simpl. nia.
  - case_decide; repeat constructor.
Qed.

(** X7. For positive [a] and [b] and every constant [c], zero and negative
    ones included, [base_solution_linear] ends normally and yields exactly the
    pairs of non-negative integers with [a * x + b * y = c]; it yields them
    ordered, [x] strictly increasing and [y] strictly decreasing or the other
    way round; and for a negative [c] it yields nothing. *)
Theorem base_solution_linear_all_constants a b c :
  0 < a → 0 < b →
  ∃ l, base_solution_linear a b c = finished l ∧
       (∀ x y, (x, y) ∈ l ↔ 0 ≤ x ∧ 0 ≤ y ∧ a * x + b * y = c) ∧
       (StronglySorted x_increasing l ∨ StronglySorted x_decreasing l) ∧
       (c < 0 → l = []).
Proof.
  intros Ha Hb.
  destruct (base_solution_linear_positive a b c Ha Hb) as (l & Hl & _ & Hmem).
  exists l. split; [done|]. split; [done|]. split.
  - revert Hl. unfold base_solution_linear. rewrite decide_False by lia.
    destruct (gcd3_normalise a b c Ha) as (Hd & Ea & Eb & Ec & Hcop).
    unfold py_floordiv. rewrite !decide_False by lia. cbn [result_bind].
    case_decide; [intros [= <-]; left; repeat constructor|].
    assert (0 < a / Z.gcd a (Z.gcd b c)) by nia.
    assert (0 < b / Z.gcd a (Z.gcd b c)) by nia.
    pose proof (extended_euclid_spec (a / Z.gcd a (Z.gcd b c)) (b / Z.gcd a (Z.gcd b c))
                  ltac:(lia) ltac:(lia)) as Hee.
    destruct (extended_euclid _ _) as [[x0 y0] g]. destruct Hee as [_ Hg].
    assert (g ≠ 0).
    { intros ->. symmetry in Hg. apply Z.gcd_eq_0_l in Hg. lia. }
    unfold py_mod. rewrite decide_False by done. cbn [result_bind].
    case_decide; [intros [= <-]; left; constructor|].
    case_decide; intros [= <-]; [left; apply ascend_sorted|right; apply descend_sorted].
  - intros Hc. destruct l as [|[x y] l]; [done|]. exfalso.
    destruct (proj1 (Hmem x y) ltac:(left)) as (? & ? & ?). nia.
Qed.

Lemma base_solution_linear_all_constants_witness :
  ∃ l, base_solution_linear 2 3 (-6) = finished l ∧
       (∀ x y, (x, y) ∈ l ↔ 0 ≤ x ∧ 0 ≤ y ∧ 2 * x + 3 * y = -6) ∧
       (StronglySorted x_increasing l ∨ StronglySorted x_decreasing l) ∧
       (-6 < 0 → l = []).
Proof. apply (base_solution_linear_all_constants 2 3 (-6)); lia. Defined.

(** ** solve_linear_diop and its cache *)

(** X8. On every cache that the function has filled itself, for positive
    coefficients and a total that is not negative (or a number of
    coefficients other than one), [solve_linear_diop] ends normally and
    yields exactly the tuples of non-negative integers, one per coefficient,
    that solve the equation, each once; and the cache it leaves holds, again,
    only what the function computes. *)
Theorem solve_linear_diop_enumerates cache total coeffs :
  cache_coherent cache →
  Forall (fun c => 0 < c) coeffs → 0 ≤ total ∨ length coeffs ≠ 1%nat →
  ∃ l, (solve_linear_diop cache total coeffs).1 = finished l ∧ NoDup l ∧
       (∀ xs, xs ∈ l ↔ is_solution total coeffs xs) ∧
       cache_coherent (solve_linear_diop cache total coeffs).2.
Proof.
  intros Hc Hpos Htot.
  destruct (solve_linear_diop_cache_transparent cache total coeffs Hc) as [Heq Hc'].
  destruct (diop_solutions_spec total coeffs Hpos Htot) as (l & Hl & Hnd & Hmem).
  exists l. rewrite Heq. done.
Qed.

Lemma solve_linear_diop_enumerates_witness :
  ∃ l, (solve_linear_diop ∅ 7 [1; 2; 3]).1 = finished l ∧ NoDup l ∧
       (∀ xs, xs ∈ l ↔ is_solution 7 [1; 2; 3] xs) ∧
       cache_coherent (solve_linear_diop ∅ 7 [1; 2; 3]).2.
Proof.
  apply (solve_linear_diop_enumerates ∅ 7 [1; 2; 3]).
  - apply cache_coherent_empty.
  - repeat constructor.
  - left. lia.
Defined.

Lemma for_each_st_grows {A B K V} `{Countable K} (xs : list A)
    (body : A → gmap K V → trace B * gmap K V) (s : gmap K V) :
  (∀ x s, s ⊆ (body x s).2) → s ⊆ (for_each_st xs body s).2.
Proof.
  intros Hbody. revert s. induction xs as [|x xs IH]; intros s; [done|].
  simpl. pose proof (Hbody x s) as Hx.
  destruct (body x s) as [[ys [e|]] s']; simpl in *; [done|].
  pose proof (IH s') as Hxs.
  destruct (for_each_st xs body s') as [[zs r] s'']. simpl in *. by etrans.
Qed.

Lemma for_trace_st_grows {A B K V} `{Countable K} (g : trace A)
    (body : A → gmap K V → trace B * gmap K V) (s : gmap K V) :
  (∀ x s, s ⊆ (body x s).2) → s ⊆ (for_trace_st g body s).2.
Proof.
  intros Hbody. unfold for_trace_st.
  pose proof (for_each_st_grows (yielded g) body s Hbody) as Hg.
  by destruct (for_each_st (yielded g) body s) as [[ys [e|]] s'].
Qed.

Lemma store_solutions_grows cache key t :
  cache !! key = None → cache ⊆ store_solutions cache key t.
Proof.
  intros Hk. unfold store_solutions. destruct (raised t); [done|].
  by apply insert_subseteq.
Qed.

(** X9. On every cache and every input, whatever the outcome,
    [solve_linear_diop] only adds to the cache: every entry that was there
    before the call is there afterwards, unchanged. *)
Theorem solve_linear_diop_cache_grows cache total coeffs :
  cache ⊆ (solve_linear_diop cache total coeffs).2.
Proof.
  funelim (solve_linear_diop cache total coeffs); try done.
  - cbn [snd]. by apply store_solutions_grows.
  - clear Heqcall. cbn [snd].
    match goal with
    | |- _ ⊆ store_solutions (for_trace_st ?t ?b cache).2 ?k _ =>
        pose proof (for_trace_st_grows t b cache) as Hg
    end.
    assert (∀ (p : Z * Z) s, s ⊆ ((λ '(x, y) cache, if decide (remainder_gcd_of c1 c2 rest' = 0)
               then (raising ZeroDivisionError, cache)
               else (trace_map (cons x) (solve_linear_diop cache y
                      ((λ c, c / remainder_gcd_of c1 c2 rest') <$> c1 :: c2 :: rest')).1,
                     (solve_linear_diop cache y
                      ((λ c, c / remainder_gcd_of c1 c2 rest') <$> c1 :: c2 :: rest')).2)) p s).2)
      as Hbody.
    { intros [x y] s. case_decide; [done|]. cbn [snd]. by apply (H (x, y) x y s). }
    specialize (Hg Hbody).
    unfold store_solutions. destruct (raised _); [done|].
    by apply insert_subseteq_r.
Qed.

Lemma store_solutions_lookup cache key (t : trace (list Z)) :
  raised t = None → store_solutions cache key t !! key = Some (yielded t).
Proof. intros Hr. unfold store_solutions. rewrite Hr. by rewrite lookup_insert_eq. Qed.

(** X10. After a call with at least two coefficients that ended normally,
    on whatever cache, the cache holds the tuples yielded under the key
    [(total, coeffs)], and the same call again yields the same tuples in the
    same order and leaves the cache as it is. *)
Theorem solve_linear_diop_cache_hit cache total coeffs :
  (2 ≤ length coeffs)%nat →
  raised (solve_linear_diop cache total coeffs).1 = None →
  let cache' := (solve_linear_diop cache total coeffs).2 in
  cache' !! (total, coeffs) = Some (yielded (solve_linear_diop cache total coeffs).1) ∧
  solve_linear_diop cache' total coeffs =
    ((solve_linear_diop cache total coeffs).1, cache').
Proof.
  intros Hlen Hr.
  assert ((solve_linear_diop cache total coeffs).2 !! (total, coeffs)
          = Some (yielded (solve_linear_diop cache total coeffs).1)) as Hk.
  { destruct coeffs as [|c0 [|c1 rest]]; simpl in Hlen; try lia.
    revert Hr. destruct rest as [|c2 rest'].
    - simp solve_linear_diop.
      destruct (cache !! (total, [c0; c1])) eqn:Hc; cbn [fst snd]; [done|].
      apply store_solutions_lookup.
    - simp solve_linear_diop.
      destruct (cache !! (total, c0 :: c1 :: c2 :: rest')) eqn:Hc; cbn [fst snd]; [done|].
      apply store_solutions_lookup. }
  split; [done|].
  destruct coeffs as [|c0 [|c1 rest]]; simpl in Hlen; try lia.
  set (r := solve_linear_diop cache total (c0 :: c1 :: rest)) in *.
  simp solve_linear_diop. rewrite Hk. cbn.
  f_equal. symmetry. by apply trace_eta.
Qed.

Lemma solve_linear_diop_cache_hit_witness :
  let cache' := (solve_linear_diop ∅ 7 [1; 2; 3]).2 in
  cache' !! (7, [1; 2; 3]) = Some (yielded (solve_linear_diop ∅ 7 [1; 2; 3]).1) ∧
  solve_linear_diop cache' 7 [1; 2; 3] = ((solve_linear_diop ∅ 7 [1; 2; 3]).1, cache').
Proof.
  apply (solve_linear_diop_cache_hit ∅ 7 [1; 2; 3]).
  - simpl. lia.
  - vm_compute. reflexivity.
Defined.

(** X11. With at least two coefficients of which the first is not positive,
    and no entry for the arguments in the cache, [solve_linear_diop] raises
    [ValueError] before it yields anything and leaves the cache as it is. *)
Theorem solve_linear_diop_first_coefficient_invalid cache total c0 c1 rest :
  cache !! (total, c0 :: c1 :: rest) = None → c0 ≤ 0 →
  solve_linear_diop cache total (c0 :: c1 :: rest) = (raising ValueError, cache).
Proof.
  intros Hc H0.
  destruct rest as [|c2 rest']; simp solve_linear_diop; rewrite Hc; cbn.
  - unfold base_solution_linear. rewrite decide_True by lia. done.
  - unfold base_solution_linear. rewrite decide_True by lia. done.
Qed.

Lemma solve_linear_diop_first_coefficient_invalid_witness :
  solve_linear_diop ∅ 7 [0; 2; 3] = (raising ValueError, ∅).
Proof.
  apply (solve_linear_diop_first_coefficient_invalid ∅ 7 0 2 [3]).
  - apply lookup_empty.
  - lia.
Defined.

(** ** The partitioner: what it yields, and its edges *)

Section partition_enumeration.
Context {T : Type} `{Countable T}.
Implicit Types (subst frag : gmap (option string) (gmap T positive)).

Lemma multiplicity_nonneg (m : gmap T positive) element : 0 ≤ multiplicity m element.
Proof. unfold multiplicity. destruct (m !! element); lia. Qed.

Lemma multiplicity_inj (m m' : gmap T positive) :
  (∀ element, multiplicity m element = multiplicity m' element) → m = m'.
Proof.
  intros Heq. apply map_eq. intros element. specialize (Heq element).
  unfold multiplicity in Heq.
  destruct (m !! element), (m' !! element); try done; try lia.
  f_equal. lia.
Qed.

Lemma accounted_nonneg variables frag element :
  Forall (fun var => 0 < count var) variables → 0 ≤ accounted variables frag element.
Proof.
  induction 1 as [|var variables Hc _ IH]; [done|]. simpl.
  pose proof (multiplicity_nonneg (assigned frag var) element). nia.
Qed.

Lemma accounted_zero_inv variables frag element :
  Forall (fun var => 0 < count var) variables →
  accounted variables frag element = 0 →
  ∀ var, var ∈ variables → multiplicity (assigned frag var) element = 0.
Proof.
  induction 1 as [|var variables Hc Hcs IH]; intros Hz var' Hin.
  - by apply elem_of_nil in Hin.
  - simpl in Hz.
    pose proof (multiplicity_nonneg (assigned frag var) element).
    pose proof (accounted_nonneg variables frag element Hcs).
    apply elem_of_cons in Hin as [->|Hin]; [nia|]. apply IH; [nia|done].
Qed.

Section levels_enumeration.
Variable variables : list VariableWithCount.
Hypothesis names_NoDup : NoDup (name <$> variables).
Hypothesis names_given : Forall (fun var => is_Some (name var)) variables.
Hypothesis counts_positive : Forall (fun var => 0 < count var) variables.
Variable frag : gmap (option string) (gmap T positive).
Hypothesis frag_binds : only_binds variables frag.
Hypothesis frag_minimums : minimums_met variables frag.

Lemma counts_of_weighted (vars : list VariableWithCount) value :
  weighted_sum (count <$> vars)
    ((fun var => multiplicity (assigned frag var) value) <$> vars) =
  accounted vars frag value.
Proof.
  induction vars as [|var vars IH]; [done|].
  rewrite !fmap_cons. cbn [weighted_sum]. by rewrite IH.
Qed.

Lemma same_bindings subst :
  present variables subst → only_binds variables subst →
  agree_outside variables [] frag subst → subst = frag.
Proof.
  intros Hpres Hout Hag. apply map_eq. intros key.
  destruct (decide (key ∈ name <$> variables)) as [Hin|Hnot].
  - apply list_elem_of_fmap in Hin as (var & -> & Hin).
    destruct (Hpres var Hin) as [m Hm].
    destruct (frag_minimums var Hin) as (m' & Hm' & _).
    rewrite Hm, Hm'. f_equal. apply multiplicity_inj. intros element.
    pose proof (Hag element (not_elem_of_nil _) var Hin) as Heq.
    unfold assigned in Heq. by rewrite Hm, Hm' in Heq.
  - by rewrite Hout, frag_binds.
Qed.

Lemma check_minimums_complete vars :
  minimums_met vars frag → check_minimums vars frag = Ok true.
Proof.
  induction vars as [|var vars IH]; intros Hmin; [done|].
  destruct (Hmin var ltac:(left)) as (m & Hm & Hlen). simpl. rewrite Hm.
  rewrite decide_False by lia. apply IH. intros var' Hin. apply Hmin. by right.
Qed.

Lemma _factory_exact value solution subst :
  length solution = length variables → Forall (fun c => 0 ≤ c) solution →
  present variables subst → only_binds variables subst →
  ∃ subst', _factory value variables solution subst = Ok (tt, subst') ∧
    present variables subst' ∧ only_binds variables subst' ∧
    agree_outside variables [value] subst subst' ∧
    ∀ i var c, variables !! i = Some var → solution !! i = Some c →
      multiplicity (assigned subst' var) value = c.
Proof.
  intros Hlen Hnn Hpres Hout.
  destruct (_factory_spec variables names_NoDup names_given value solution subst
              Hlen Hnn Hpres) as (subst' & Hrun & Hpres' & _ & Hag & _).
  { apply Hout. by apply None_not_name. }
  exists subst'. split; [done|]. split; [done|].
  unfold _factory in Hrun.
  destruct (assign_all_spec value variables solution subst names_NoDup Hlen Hpres)
    as (subst'' & Hrun' & Hset & Hkeep).
  rewrite Hrun' in Hrun. injection Hrun as <-.
  split; [|split; [done|]].
  - intros key Hkey. rewrite Hkeep by done. by apply Hout.
  - intros i var c Hv Hc. destruct (Hset i var c Hv Hc) as (m & Hm & Hm').
    unfold assigned. rewrite Hm'. simpl. rewrite multiplicity_setitem.
    + by rewrite decide_True.
    + rewrite Forall_forall in Hnn. apply Hnn. by eapply list_elem_of_lookup_2.
Qed.

Lemma levels_exhaustive todo :
  NoDup todo.*1 → Forall (fun p => 0 ≤ p.2) todo →
  (∀ value m, (value, m) ∈ todo → accounted variables frag value = m) →
  ∀ subst, present variables subst → only_binds variables subst →
  ∃ os subst',
    nested_loops (partition_body variables) (level_factories variables todo) tt subst =
      (os, Ok subst') ∧
    present variables subst' ∧ only_binds variables subst' ∧
    agree_outside variables todo.*1 subst subst' ∧
    (agree_outside variables todo.*1 frag subst → frag ∈ os).
Proof.
  induction todo as [|[value total] todo IH]; intros Hnd Htot Hacc subst Hpres Hout.
  - assert (Hnone : subst !! None = None) by (apply Hout; by apply None_not_name).
    destruct (partition_body_spec variables subst Hpres Hnone) as (os & Hbody & Hos).
    exists os, subst. cbn [level_factories fmap list_fmap nested_loops].
    rewrite Hbody. split; [done|]. split; [done|]. split; [done|].
    split; [apply agree_outside_refl|].
    intros Hag. apply (same_bindings subst Hpres Hout) in Hag. subst subst.
    unfold partition_body in Hbody.
    rewrite (check_minimums_complete variables frag_minimums) in Hbody.
    cbn [result_bind] in Hbody.
    rewrite decide_False in Hbody by (rewrite Hnone; by intros [??]).
    injection Hbody as <-. by left.
  - rewrite fmap_cons in Hnd. apply NoDup_cons in Hnd as [Hvalue Hnd].
    apply Forall_cons in Htot as [Htotal Htot]. simpl in Htotal.
    assert (Hacc' : ∀ value m, (value, m) ∈ todo → accounted variables frag value = m).
    { intros. apply Hacc. by right. }
    specialize (IH Hnd Htot Hacc').
    unfold level_factories. rewrite fmap_cons. fold (level_factories variables todo).
    rewrite nested_loops_cons. unfold _make_variable_generator_factory.
    destruct (diop_solutions_spec total (count <$> variables)) as (l & -> & _ & Hl).
    { by apply Forall_fmap. }
    { by left. }
    unfold finished. cbn [yielded raised]. rewrite app_nil_r.
    assert (Hsols : Forall (is_solution total (count <$> variables)) l).
    { apply Forall_forall. intros. by apply Hl. }
    assert (Htarget : counts_in variables frag value ∈ l).
    { apply Hl. split; [|split].
      - unfold counts_in. by rewrite !length_fmap.
      - apply Forall_fmap, Forall_forall. intros var _. apply multiplicity_nonneg.
      - unfold counts_in. rewrite counts_of_weighted. apply Hacc. by left. }
    clear Hl.
    cut (∀ subst, present variables subst → only_binds variables subst →
          ∃ os subst',
            run_generator (partition_body variables) (level_factories variables todo)
              (_factory value variables <$> l) subst = (os, Ok subst') ∧
            present variables subst' ∧ only_binds variables subst' ∧
            agree_outside variables (value :: todo.*1) subst subst' ∧
            (counts_in variables frag value ∈ l →
             agree_outside variables (value :: todo.*1) frag subst → frag ∈ os)).
    { intros Hcut. destruct (Hcut subst Hpres Hout) as (os & subst' & ? & ? & ? & ? & Hin).
      exists os, subst'. split; [done|]. split; [done|]. split; [done|].
      split; [done|]. by apply Hin. }
    clear subst Hpres Hout Htarget.
    induction Hsols as [|solution l Hsol Hsols IHl]; intros subst Hpres Hout.
    + exists [], subst. rewrite fmap_nil, run_generator_nil.
      split; [done|]. split; [done|]. split; [done|].
      split; [apply agree_outside_refl|]. by intros ?%elem_of_nil.
    + destruct Hsol as (Hlen & Hnn & Hsum). rewrite length_fmap in Hlen.
      destruct (_factory_exact value solution subst Hlen Hnn Hpres Hout)
        as (subst1 & Hrun & Hpres1 & Hout1 & Hagree1 & Hset1).
      destruct (IH subst1 Hpres1 Hout1)
        as (os1 & subst2 & Hnest & Hpres2 & Hout2 & Hagree2 & Hin1).
      destruct (IHl subst2 Hpres2 Hout2)
        as (os2 & subst3 & Hgen & Hpres3 & Hout3 & Hagree3 & Hin2).
      exists (os1 ++ os2), subst3.
      rewrite fmap_cons, run_generator_cons, Hrun, Hnest, Hgen.
      split; [done|]. split; [done|]. split; [done|].
      assert (Hagree12 : agree_outside variables (value :: todo.*1) subst subst2).
      { apply (agree_outside_trans variables [value] todo.*1 _ _ subst1);
          [keys_incl..|done|done]. }
      split.
      { apply (agree_outside_trans variables (value :: todo.*1) (value :: todo.*1) _ _ subst2);
          [keys_incl..|done|done]. }
      intros [Heq|Hin]%elem_of_cons Hag; apply elem_of_app.
      * left. apply Hin1. intros element Hel var Hvar.
        destruct (decide (element = value)) as [->|Hne].
        -- apply list_elem_of_lookup_1 in Hvar as [i Hi].
           apply (Hset1 i var); [done|]. rewrite <- Heq. unfold counts_in.
           by rewrite list_lookup_fmap, Hi.
        -- assert (element ∉ [value]) as Hnot by (by intros ?%list_elem_of_singleton).
           rewrite (Hagree1 element Hnot var Hvar).
           apply Hag; [|done]. by intros [?|?]%elem_of_cons.
      * right. apply Hin2; [done|].
        apply (agree_outside_trans variables (value :: todo.*1) (value :: todo.*1) _ _ subst);
          [keys_incl..|done|done].
Qed.
Lemma counts_in_solution subst value solution :
  length solution = length variables →
  (∀ i var c, variables !! i = Some var → solution !! i = Some c →
     multiplicity (assigned subst var) value = c) →
  counts_in variables subst value = solution.
Proof.
  intros Hlen Hset. apply list_eq. intros i. unfold counts_in.
  rewrite list_lookup_fmap. destruct (variables !! i) as [var|] eqn:Hv; simpl.
  - destruct (lookup_lt_is_Some_2 solution i) as [c Hc].
    { rewrite Hlen. by eapply lookup_lt_Some. }
    rewrite Hc. f_equal. by apply (Hset i).
  - symmetry. apply lookup_ge_None. rewrite Hlen. by apply lookup_ge_None.
Qed.

Lemma counts_in_agree (keys : list T) subst subst' value :
  value ∉ keys → agree_outside variables keys subst subst' →
  counts_in variables subst' value = counts_in variables subst value.
Proof.
  intros Hvalue Hag. unfold counts_in. apply Forall_fmap_ext_1, Forall_forall.
  intros var Hin. by apply Hag.
Qed.

Lemma levels_NoDup todo :
  NoDup todo.*1 → Forall (fun p => 0 ≤ p.2) todo →
  ∀ subst, present variables subst → only_binds variables subst →
  ∃ os subst',
    nested_loops (partition_body variables) (level_factories variables todo) tt subst =
      (os, Ok subst') ∧
    present variables subst' ∧ only_binds variables subst' ∧
    agree_outside variables todo.*1 subst subst' ∧
    Forall (agree_outside variables todo.*1 subst) os ∧
    NoDup os.
Proof.
  induction todo as [|[value total] todo IH]; intros Hnd Htot subst Hpres Hout.
  - assert (Hnone : subst !! None = None) by (apply Hout; by apply None_not_name).
    destruct (partition_body_spec variables subst Hpres Hnone) as (os & Hbody & Hos).
    exists os, subst. cbn [level_factories fmap list_fmap nested_loops].
    rewrite Hbody. split; [done|]. split; [done|]. split; [done|].
    split; [apply agree_outside_refl|]. split.
    + eapply Forall_impl; [exact Hos|]. intros o [-> _]. apply agree_outside_refl.
    + unfold partition_body in Hbody.
      destruct (check_minimums variables subst) as [[|]|]; simpl in Hbody; [| |done].
      * case_decide; injection Hbody as <-; apply NoDup_singleton.
      * injection Hbody as <-. apply NoDup_nil_2.
  - rewrite fmap_cons in Hnd. apply NoDup_cons in Hnd as [Hvalue Hnd].
    apply Forall_cons in Htot as [Htotal Htot]. simpl in Htotal, Hvalue.
    specialize (IH Hnd Htot).
    unfold level_factories. rewrite fmap_cons. fold (level_factories variables todo).
    rewrite nested_loops_cons. unfold _make_variable_generator_factory.
    destruct (diop_solutions_spec total (count <$> variables)) as (l & -> & Hndl & Hl).
    { by apply Forall_fmap. }
    { by left. }
    unfold finished. cbn [yielded raised]. rewrite app_nil_r.
    assert (Hsols : Forall (is_solution total (count <$> variables)) l).
    { apply Forall_forall. intros. by apply Hl. }
    clear Hl.
    cut (∀ subst, present variables subst → only_binds variables subst →
          ∃ os subst',
            run_generator (partition_body variables) (level_factories variables todo)
              (_factory value variables <$> l) subst = (os, Ok subst') ∧
            present variables subst' ∧ only_binds variables subst' ∧
            agree_outside variables (value :: todo.*1) subst subst' ∧
            Forall (agree_outside variables (value :: todo.*1) subst) os ∧
            Forall (fun o => counts_in variables o value ∈ l) os ∧
            NoDup os).
    { intros Hcut.
      destruct (Hcut subst Hpres Hout) as (os & subst' & ? & ? & ? & ? & ? & _ & ?).
      by exists os, subst'. }
    clear subst Hpres Hout.
    induction Hsols as [|solution l Hsol Hsols IHl]; intros subst Hpres Hout.
    + exists [], subst. rewrite fmap_nil, run_generator_nil.
      split; [done|]. split; [done|]. split; [done|].
      split; [apply agree_outside_refl|]. split; [constructor|].
      split; [constructor|apply NoDup_nil_2].
    + apply NoDup_cons in Hndl as [Hfresh Hndl].
      destruct Hsol as (Hlen & Hnn & Hsum). rewrite length_fmap in Hlen.
      destruct (_factory_exact value solution subst Hlen Hnn Hpres Hout)
        as (subst1 & Hrun & Hpres1 & Hout1 & Hagree1 & Hset1).
      destruct (IH subst1 Hpres1 Hout1)
        as (os1 & subst2 & Hnest & Hpres2 & Hout2 & Hagree2 & Hos1 & Hnd1).
      destruct (IHl Hndl subst2 Hpres2 Hout2)
        as (os2 & subst3 & Hgen & Hpres3 & Hout3 & Hagree3 & Hos2 & Hin2 & Hnd2).
      exists (os1 ++ os2), subst3.
      rewrite fmap_cons, run_generator_cons, Hrun, Hnest, Hgen.
      split; [done|]. split; [done|]. split; [done|].
      assert (Hagree12 : agree_outside variables (value :: todo.*1) subst subst2).
      { apply (agree_outside_trans variables [value] todo.*1 _ _ subst1);
          [keys_incl..|done|done]. }
      assert (Hcounts1 : Forall (fun o => counts_in variables o value = solution) os1).
      { eapply Forall_impl; [exact Hos1|]. intros o Hag.
        rewrite (counts_in_agree todo.*1 subst1 o value Hvalue Hag).
        by apply counts_in_solution. }
      split.
      { apply (agree_outside_trans variables (value :: todo.*1) (value :: todo.*1) _ _ subst2);
          [keys_incl..|done|done]. }
      split; [|split].
      * apply Forall_app. split.
        -- eapply Forall_impl; [exact Hos1|]. intros o Hag.
           apply (agree_outside_trans variables [value] todo.*1 _ _ subst1);
             [keys_incl..|done|done].
        -- eapply Forall_impl; [exact Hos2|]. intros o Hag.
           apply (agree_outside_trans variables (value :: todo.*1) (value :: todo.*1)
                    _ _ subst2); [keys_incl..|done|done].
      * apply Forall_app. split.
        -- eapply Forall_impl; [exact Hcounts1|]. intros o ->. by left.
        -- eapply Forall_impl; [exact Hin2|]. intros o ?. by right.
      * apply NoDup_app. split; [done|]. split; [|done].
        intros o Ho1 Ho2. rewrite Forall_forall in Hcounts1, Hin2.
        apply Hfresh. rewrite <- (Hcounts1 o Ho1). by apply Hin2.
Qed.
End levels_enumeration.

Lemma single_variable_exhaustive (values : gmap T positive) var frag :
  0 < count var → is_Some (name var) →
  only_binds [var] frag → minimums_met [var] frag → accounts_for [var] values frag →
  _commutative_single_variable_partiton_iter values var = finished [frag].
Proof.
  destruct var as [[nm|] cnt mn]; simpl; intros Hcnt [? Hnm] Hout Hmin Hacc; [|done].
  set (var := {| name := Some nm; count := cnt; minimum := mn |}) in *.
  destruct (Hmin var ltac:(left)) as (m & Hm & Hlen). simpl in Hm, Hlen.
  assert (Hfrag : frag = fragment (Some nm) m).
  { apply map_eq. intros key. simpl.
    destruct (decide (key = Some nm)) as [->|Hne].
    - by rewrite lookup_singleton_eq.
    - rewrite lookup_singleton_ne by done. apply Hout.
      by intros ->%list_elem_of_singleton. }
  assert (Hmult : ∀ element, cnt * multiplicity m element = multiplicity values element).
  { intros element. rewrite <- (Hacc element). simpl. unfold assigned. simpl.
    rewrite Hm. simpl. lia. }
  unfold _commutative_single_variable_partiton_iter. subst var. cbn beta iota.
  case_decide as Hone.
  - subst cnt. assert (m = values) as ->.
    { apply multiplicity_inj. intros element. rewrite <- Hmult. lia. }
    rewrite decide_True by lia. by rewrite Hfrag.
  - pose proof (divide_items_spec (multiset_items values) cnt ∅ Hcnt
                  (multiset_items_NoDup values)) as [_ Hgood].
    { apply Forall_forall. intros [element c] Hin.
      by apply multiset_items_multiplicity in Hin as [_ ?]. }
    destruct Hgood as (new & -> & Hin & Hnot).
    { apply Forall_forall. intros [element c] Hel. simpl.
      apply multiset_items_multiplicity in Hel as [-> _]. rewrite <- Hmult.
      rewrite Z.mul_comm. apply Z.mod_mul. lia. }
    assert (new = m) as ->.
    { apply multiplicity_inj. intros element.
      destruct (decide (element ∈ (multiset_items values).*1)) as [Hel|Hel].
      - apply list_elem_of_fmap in Hel as ([e c] & -> & Hel). simpl.
        rewrite (Hin _ _ Hel). apply multiset_items_multiplicity in Hel as [-> _].
        rewrite <- Hmult. rewrite Z.mul_comm. apply Z.div_mul. lia.
      - rewrite (Hnot _ Hel), multiplicity_empty.
        pose proof (multiset_items_keys _ _ Hel) as Hz. rewrite <- Hmult in Hz.
        pose proof (multiplicity_nonneg m element). nia. }
    rewrite decide_True by lia. by rewrite Hfrag.
Qed.

(** X12. For every input multiset and every non-empty list of variables
    with names that are given and pairwise distinct and with positive counts,
    the partitioner misses nothing: every substitution that binds exactly the
    variables, each to a sub-multiset of at least its minimum size, such that
    the sum over all variables of [count] times the bound sub-multiset is the
    input multiset, is among the substitutions yielded. *)
Theorem partition_exhaustive (values : gmap T positive) variables frag :
  Forall (fun var => is_Some (name var)) variables →
  NoDup (name <$> variables) →
  Forall (fun var => 0 < count var) variables →
  variables ≠ [] →
  only_binds variables frag → minimums_met variables frag →
  accounts_for variables values frag →
  ∃ n frags,
    (∀ fuel,
        commutative_sequence_variable_partition_iter (n + fuel) values variables =
        (frags, Exhausted)) ∧
    frag ∈ frags.
Proof.
  intros Hnames Hnd Hcounts Hne Hout Hmin Hacc.
  destruct variables as [|var [|var' variables']]; [done| |].
  - apply Forall_cons in Hnames as [Hname _]. apply Forall_cons in Hcounts as [Hcount _].
    exists 0%nat, [frag]. split; [|by left].
    intros fuel. cbn [commutative_sequence_variable_partition_iter].
    by rewrite (single_variable_exhaustive values var frag).
  - set (variables := var :: var' :: variables') in *.
    set (todo := multiset_items values).
    pose proof (initial_substitution_spec (T := T) variables) as [Hinit Hinit'].
    destruct (levels_exhaustive variables Hnd Hnames Hcounts frag Hout Hmin todo
                (multiset_items_NoDup values))
      with (subst := initial_substitution (T := T) variables)
      as (os & subst' & Hnest & _ & _ & _ & Hin).
    { apply Forall_forall. intros [element c] Hel.
      apply multiset_items_multiplicity in Hel as [_ ?]. simpl. lia. }
    { intros value m Hel. rewrite (Hacc value).
      by apply multiset_items_multiplicity in Hel as [-> _]. }
    { intros v Hv. rewrite Hinit; [done|]. by apply list_elem_of_fmap_2. }
    { exact Hinit'. }
    destruct (generator_chain_nested_loops (level_factories variables todo)
                (partition_body variables) tt (initial_substitution variables))
      as [n Hn].
    rewrite Hnest in Hn. exists n, os. split; [intros fuel; apply Hn|].
    apply Hin. intros element Hel v Hv.
    unfold assigned at 1. rewrite Hinit by (by apply list_elem_of_fmap_2). simpl.
    rewrite multiplicity_empty. symmetry.
    pose proof (multiset_items_keys _ _ Hel) as Hz. rewrite <- (Hacc element) in Hz.
    by apply (accounted_zero_inv variables frag element Hcounts Hz).
Qed.

Lemma single_variable_at_most_one (values : gmap T positive) var :
  (length (yielded (_commutative_single_variable_partiton_iter values var)) ≤ 1)%nat.
Proof.
  destruct var as [nm cnt mn]. unfold _commutative_single_variable_partiton_iter.
  repeat case_decide; try (simpl; lia).
  destruct (divide_items _ _ _) as [[new|]|e]; try (simpl; lia).
  case_decide; simpl; lia.
Qed.

(** X13. For every input multiset and every list of variables with names
    that are given and pairwise distinct and with positive counts, the
    partitioner ends normally and yields no substitution twice. *)
Theorem partition_no_repetition (values : gmap T positive) variables :
  Forall (fun var => is_Some (name var)) variables →
  NoDup (name <$> variables) →
  Forall (fun var => 0 < count var) variables →
  ∃ n frags,
    (∀ fuel,
        commutative_sequence_variable_partition_iter (n + fuel) values variables =
        (frags, Exhausted)) ∧
    NoDup frags.
Proof.
  intros Hnames Hnd Hcounts.
  assert (Hmany : ∃ n frags,
            (∀ fuel,
                generator_chain (level_factories variables (multiset_items values))
                  (partition_body variables) (n + fuel) tt
                  (initial_substitution variables) = (frags, Exhausted)) ∧
            NoDup frags).
  { pose proof (initial_substitution_spec (T := T) variables) as [Hinit Hinit'].
    destruct (levels_NoDup variables Hnd Hnames Hcounts (multiset_items values)
                (multiset_items_NoDup values))
      with (subst := initial_substitution (T := T) variables)
      as (os & subst' & Hnest & _ & _ & _ & _ & Hos).
    { apply Forall_forall. intros [element c] Hel.
      apply multiset_items_multiplicity in Hel as [_ ?]. simpl. lia. }
    { intros v Hv. rewrite Hinit; [done|]. by apply list_elem_of_fmap_2. }
    { exact Hinit'. }
    destruct (generator_chain_nested_loops
                (level_factories variables (multiset_items values))
                (partition_body variables) tt (initial_substitution variables))
      as [n Hn].
    rewrite Hnest in Hn. by exists n, os. }
  destruct variables as [|var [|var' variables']]; [exact Hmany| |exact Hmany].
  apply Forall_cons in Hnames as [Hname _]. apply Forall_cons in Hcounts as [Hcount _].
  destruct (single_variable_spec values var Hcount Hname) as (l & Hl & _).
  pose proof (single_variable_at_most_one values var) as Hlen. rewrite Hl in Hlen.
  exists 0%nat, l. split.
  - intros fuel. cbn [commutative_sequence_variable_partition_iter]. by rewrite Hl.
  - simpl in Hlen. destruct l as [|frag [|??]]; simpl in Hlen; try lia.
    + apply NoDup_nil_2.
    + apply NoDup_singleton.
Qed.
End partition_enumeration.

Lemma diop_solutions_first_coefficient_invalid total c0 c1 rest :
  c0 ≤ 0 → diop_solutions total (c0 :: c1 :: rest) = raising ValueError.
Proof.
  intros H0. destruct rest as [|c2 rest']; simp diop_solutions; cbn zeta;
    unfold base_solution_linear; rewrite decide_True by lia; done.
Qed.

Section partition_edges.
Context {T : Type} `{Countable T}.

Lemma multiset_items_empty (values : gmap T positive) :
  multiset_items values = [] ↔ values = ∅.
Proof.
  unfold multiset_items. split.
  - intros Hnil%fmap_nil_inv. by apply map_to_list_empty_iff.
  - intros ->. by rewrite map_to_list_empty.
Qed.

(** X14. With no variable at all, the partitioner yields the empty
    substitution once when the input multiset is empty, and nothing when it
    is not. *)
Theorem partition_no_variables (values : gmap T positive) fuel :
  commutative_sequence_variable_partition_iter (S fuel) values [] =
  (if decide (values = ∅) then [∅] else [], Exhausted).
Proof.
  unfold commutative_sequence_variable_partition_iter.
  destruct (multiset_items values) as [|[value c] items] eqn:Hitems.
  - apply multiset_items_empty in Hitems. by rewrite decide_True.
  - rewrite decide_False.
    2: { intros Hv%multiset_items_empty. by rewrite Hv in Hitems. }
    assert (Hc : c ≠ 0).
    { assert ((value, c) ∈ multiset_items values) as Hin by (rewrite Hitems; by left).
      apply multiset_items_multiplicity in Hin. lia. }
    unfold generator_chain. rewrite decide_False by (unfold generator_count; simpl; lia).
    cbn [generator_chain_loop]. unfold generator_count. cbn.
    rewrite decide_True by lia. unfold _make_variable_generator_factory.
    simp diop_solutions. rewrite decide_False by done. cbn.
    done.
Qed.

(** X15. A single variable of count 0 and an input multiset that is not
    empty: the partitioner yields nothing and ends with
    [ZeroDivisionError]. *)
Theorem partition_single_zero_count (values : gmap T positive) var fuel :
  count var = 0 → values ≠ ∅ →
  commutative_sequence_variable_partition_iter fuel values [var] =
  ([], Raised ZeroDivisionError).
Proof.
  intros Hcount Hvalues. destruct var as [nm cnt mn]. simpl in Hcount. subst cnt.
  cbn [commutative_sequence_variable_partition_iter].
  unfold _commutative_single_variable_partiton_iter. rewrite decide_False by lia.
  destruct (multiset_items values) as [|[value c] items] eqn:Hitems.
  - by apply multiset_items_empty in Hitems.
  - reflexivity.
Qed.

(** X16. Two or more variables of which the first has a count that is not
    positive, and an input multiset that is not empty: the partitioner yields
    nothing and ends with the [ValueError] of the equation solver. *)
Theorem partition_first_count_invalid (values : gmap T positive) var var' variables fuel :
  count var ≤ 0 → values ≠ ∅ →
  commutative_sequence_variable_partition_iter (S fuel) values (var :: var' :: variables) =
  ([], Raised ValueError).
Proof.
  intros Hcount Hvalues.
  unfold commutative_sequence_variable_partition_iter.
  destruct (multiset_items values) as [|[value c] items] eqn:Hitems.
  - by apply multiset_items_empty in Hitems.
  - unfold generator_chain. rewrite decide_False by (unfold generator_count; simpl; lia).
    cbn [generator_chain_loop]. unfold generator_count.
    rewrite decide_True by (cbn; lia).
    cbn [generator_index Z.to_nat fmap list_fmap lookup list_lookup generators replicate
         length next_data].
    unfold _make_variable_generator_factory.
    rewrite !fmap_cons, diop_solutions_first_coefficient_invalid by done.
    reflexivity.
Qed.
End partition_edges.

Lemma partition_exhaustive_witness :
  ∃ n frags,
    (∀ fuel,
        commutative_sequence_variable_partition_iter (n + fuel) one_a
          [x_at_least_one; y_twice] = (frags, Exhausted)) ∧
    (<[Some "y" := ∅]> {[ Some "x" := one_a ]}
       : gmap (option string) (gmap string positive)) ∈ frags.
Proof.
  apply (partition_exhaustive one_a [x_at_least_one; y_twice]).
  - repeat constructor; by eexists.
  - compute_done.
  - repeat constructor; simpl; lia.
  - discriminate.
  - intros key Hkey. apply not_elem_of_cons in Hkey as [Hx Hkey].
    apply not_elem_of_cons in Hkey as [Hy _]. simpl in Hx, Hy.
    rewrite lookup_insert_ne by done. by apply lookup_singleton_ne.
  - intros var [->|[->|[]%elem_of_nil]%elem_of_cons]%elem_of_cons.
    + exists one_a. split; [reflexivity|]. by vm_compute.
    + exists ∅. split; [reflexivity|]. by vm_compute.
  - intros element. unfold accounted, assigned. simpl.
    rewrite lookup_insert_ne by done. rewrite lookup_singleton_eq, lookup_insert_eq.
    simpl. rewrite multiplicity_empty. lia.
Defined.

Lemma partition_no_repetition_witness :
  ∃ n frags,
    (∀ fuel,
        commutative_sequence_variable_partition_iter (n + fuel) aaabbc
          [x_at_least_one; y_twice] = (frags, Exhausted)) ∧
    NoDup frags.
Proof.
  apply (partition_no_repetition aaabbc [x_at_least_one; y_twice]).
  - repeat constructor; by eexists.
  - compute_done.
  - repeat constructor; simpl; lia.
Defined.

Lemma partition_single_zero_count_witness :
  commutative_sequence_variable_partition_iter 0 one_a [x_no_count] =
  ([], Raised ZeroDivisionError).
Proof.
  apply (partition_single_zero_count one_a x_no_count 0%nat).
  - reflexivity.
  - apply map_non_empty_singleton.
Defined.

Lemma partition_first_count_invalid_witness :
  commutative_sequence_variable_partition_iter 1 one_a [x_no_count; y_twice] =
  ([], Raised ValueError).
Proof.
  apply (partition_first_count_invalid one_a x_no_count y_twice [] 0%nat).
  - simpl. lia.
  - apply map_non_empty_singleton.
Defined.

(** ** generator_chain: composition *)

Lemma generator_chain_list_nested_for {A} (initial_data : A) (factories : list (A → list A)) :
  ∃ n, ∀ fuel,
    generator_chain_list (n + fuel) initial_data factories =
    Some (nested_for factories initial_data).
Proof.
  destruct (generator_chain_nested_loops
              ((fun f d => pure_generator (f d)) <$> factories)
              (fun d (s : unit) => Ok ([d], s)) initial_data tt) as [n Hn].
  exists n. intros fuel. unfold generator_chain_list.
  by rewrite Hn, nested_loops_pure.
Qed.

Lemma nested_for_app {A} (fs gs : list (A → list A)) (d : A) :
  nested_for (fs ++ gs) d = nested_for fs d ≫= nested_for gs.
Proof.
  revert d. induction fs as [|f fs IH]; intros d.
  - simpl. by rewrite app_nil_r.
  - cbn [app nested_for]. generalize (f d). intros l.
    induction l as [|d' l IHl]; [done|].
    by rewrite !bind_cons, bind_app, IH, IHl.
Qed.

(** X17. How chains compose: a chain with one more factory at its end
    yields, for each value that the shorter chain yields and in the same
    order, the values that the last factory makes of it, as in
    [[y for x in generator_chain(d, *fs) for y in last(x)]]. *)
Theorem generator_chain_last_factory {A} (initial_data : A)
    (factories : list (A → list A)) (last : A → list A) :
  ∃ n, ∀ fuel,
    generator_chain_list (n + fuel) initial_data (factories ++ [last]) =
    (fun data => data ≫= last) <$>
      generator_chain_list (n + fuel) initial_data factories.
Proof.
  destruct (generator_chain_list_nested_for initial_data (factories ++ [last])) as [n1 H1].
  destruct (generator_chain_list_nested_for initial_data factories) as [n2 H2].
  exists (n1 + n2)%nat. intros fuel.
  rewrite <- Nat.add_assoc, H1.
  replace (n1 + (n2 + fuel))%nat with (n2 + (n1 + fuel))%nat by lia.
  rewrite H2. simpl. f_equal. rewrite nested_for_app.
  apply Forall_bind_ext, Forall_forall. intros d _. cbn [nested_for].
  generalize (last d). intros l. induction l as [|x l IHl]; [done|].
  rewrite bind_cons, IHl. done.
Qed.

(** ** substitute: the flag, the results and a second pass *)

Lemma variable_names_operation head operands name :
  name ∈ variable_names (Operation head operands) ↔
  ∃ operand, operand ∈ operands ∧ name ∈ variable_names operand.
Proof.
  simpl. rewrite list_elem_of_join. split.
  - intros (l & Hname & (operand & -> & Hin)%list_elem_of_fmap). eauto.
  - intros (operand & Hin & Hname). exists (variable_names operand).
    split; [done|]. apply list_elem_of_fmap. eauto.
Qed.

Lemma substitute_replaced expression substitution :
  (substitute expression substitution).2 = true ↔
  ∃ name, name ∈ variable_names expression ∧ is_Some (substitution !! name).
Proof.
  induction expression as [name|name|head operands IH] using Expression_ind.
  - simpl. split; [done|]. by intros (? & ?%elem_of_nil & _).
  - simpl. destruct (substitution !! name) as [r|] eqn:Hname; simpl.
    + split; [|done]. intros _. exists name. split; [by left|]. by rewrite Hname.
    + split; [done|]. intros (name' & ->%list_elem_of_singleton & Hsome).
      rewrite Hname in Hsome. by destruct Hsome.
  - rewrite substitute_operation.
    setoid_rewrite variable_names_operation.
    rewrite Forall_forall in IH.
    destruct (existsb _ operands) eqn:Hex; simpl.
    + split; [|done]. intros _.
      apply existsb_exists in Hex as (o & Hin%list_elem_of_In & Ho).
      apply (IH o Hin) in Ho as (name & Hname & Hsome). eauto.
    + split; [done|]. intros (name & (o & Hin & Hname) & Hsome).
      assert (existsb (fun o => (substitute o substitution).2) operands = true) as Hex'.
      { apply existsb_exists. exists o. split; [by apply list_elem_of_In|].
        apply (IH o Hin). eauto. }
      congruence.
Qed.

(** X18. The flag that [substitute] returns is [True] exactly when a variable
    that occurs in the expression has its name among the keys of the
    substitution; and when the flag is [False] the expression returned is the
    one given. *)
Theorem substitute_replaced_iff expression substitution :
  ((substitute expression substitution).2 = true ↔
   ∃ name, name ∈ variable_names expression ∧ is_Some (substitution !! name)) ∧
  ((substitute expression substitution).2 = false →
   (substitute expression substitution).1 = Single expression).
Proof.
  split; [apply substitute_replaced|]. intros Hflag.
  rewrite substitute_unbound; [done|]. intros name Hname.
  destruct (substitution !! name) as [r|] eqn:Hr; [|done].
  assert ((substitute expression substitution).2 = true) as Ht.
  { apply substitute_replaced. exists name. by rewrite Hr. }
  congruence.
Qed.

(** X19. [substitute] returns a list of expressions exactly when the
    expression is a variable that the substitution binds to a list, and the
    list is then the one bound; in every other case it returns a single
    expression. *)
Theorem substitute_sequence_iff expression substitution es :
  (substitute expression substitution).1 = Sequence es ↔
  ∃ name, expression = Variable_ name ∧ substitution !! name = Some (Sequence es).
Proof.
  split.
  - destruct expression as [name|name|head operands].
    + done.
    + simpl. destruct (substitution !! name) as [r|] eqn:Hname; simpl; [|done].
      intros ->. eauto.
    + rewrite substitute_operation. by destruct (existsb _ operands).
  - intros (name & -> & Hname). simpl. by rewrite Hname.
Qed.

Lemma substitute_variables expression substitution name :
  name ∈ replacement_variables (substitute expression substitution).1 ↔
  (name ∈ variable_names expression ∧ substitution !! name = None) ∨
  ∃ bound r, bound ∈ variable_names expression ∧ substitution !! bound = Some r ∧
             name ∈ replacement_variables r.
Proof.
  revert name.
  induction expression as [nm|nm|head operands IH] using Expression_ind; intros name.
  - simpl. unfold replacement_variables. simpl. split.
    + by intros ?%elem_of_nil.
    + intros [[?%elem_of_nil _]|(? & ? & ?%elem_of_nil & _)]; done.
  - simpl. destruct (substitution !! nm) as [r|] eqn:Hnm; simpl.
    + split.
      * intros Hin. right. exists nm, r. split; [by left|]. done.
      * intros [[->%list_elem_of_singleton Hnone]|(b & r' & ->%list_elem_of_singleton & Hb & Hin)];
          congruence.
    + unfold replacement_variables. simpl. split.
      * intros ->%list_elem_of_singleton. left. split; [by left|done].
      * intros [[? _]|(b & r' & ->%list_elem_of_singleton & Hb & _)]; [done|congruence].
  - rewrite Forall_forall in IH.
    assert (Hops : name ∈ substituted_operands substitution operands ≫= variable_names ↔
              (name ∈ variable_names (Operation head operands) ∧ substitution !! name = None) ∨
              ∃ bound r, bound ∈ variable_names (Operation head operands) ∧
                         substitution !! bound = Some r ∧ name ∈ replacement_variables r).
    { unfold substituted_operands. split.
      - intros (e & He & (o & Hr & Ho)%list_elem_of_bind)%list_elem_of_bind.
        assert (name ∈ replacement_variables (substitute o substitution).1) as Hin.
        { unfold replacement_variables. apply list_elem_of_bind. eauto. }
        apply (IH o Ho) in Hin as [[Hname Hnone]|(b & r & Hb & Hr' & Hin)].
        + left. split; [|done]. apply variable_names_operation. eauto.
        + right. exists b, r. split; [|done]. apply variable_names_operation. eauto.
      - intros [[(o & Ho & Hname)%variable_names_operation Hnone]
               |(b & r & (o & Ho & Hb)%variable_names_operation & Hr & Hin)].
        + assert (name ∈ replacement_variables (substitute o substitution).1) as Hin.
          { apply (IH o Ho). left. eauto. }
          unfold replacement_variables in Hin. apply list_elem_of_bind in Hin as (e & ? & ?).
          apply list_elem_of_bind. exists e. split; [done|].
          apply list_elem_of_bind. eauto.
        + assert (name ∈ replacement_variables (substitute o substitution).1) as Hin'.
          { apply (IH o Ho). right. eauto. }
          unfold replacement_variables in Hin'. apply list_elem_of_bind in Hin' as (e & ? & ?).
          apply list_elem_of_bind. exists e. split; [done|].
          apply list_elem_of_bind. eauto. }
    rewrite substitute_operation.
    destruct (existsb _ operands) eqn:Hex; cbn [fst].
    + unfold replacement_variables at 1. cbn [replacement_list]. simpl mbind.
      rewrite app_nil_r. unfold from_args.
      change (variable_names (Operation head (substituted_operands substitution operands)))
        with (mjoin (variable_names <$> substituted_operands substitution operands)).
      rewrite <- Hops. rewrite list_elem_of_join, list_elem_of_bind. split.
      * intros (l & Hname & (e & -> & He)%list_elem_of_fmap). eauto.
      * intros (e & Hname & He). exists (variable_names e). split; [done|].
        apply list_elem_of_fmap. eauto.
    + assert (Hfree : ∀ nm, nm ∈ variable_names (Operation head operands) →
                substitution !! nm = None).
      { intros nm Hnm. destruct (substitution !! nm) eqn:Hb; [|done].
        assert ((substitute (Operation head operands) substitution).2 = true) as Ht.
        { apply substitute_replaced. exists nm. by rewrite Hb. }
        rewrite substitute_operation, Hex in Ht. done. }
      unfold replacement_variables at 1. cbn [replacement_list]. simpl mbind.
      rewrite app_nil_r. split.
      * intros Hin. left. split; [done|]. by apply Hfree.
      * intros [[? _]|(b & r & Hb & Hr & _)]; [done|].
        rewrite (Hfree b Hb) in Hr. done.
Qed.

(** X20. When no variable that occurs in a value of the substitution is
    itself a key of the substitution, substituting twice is substituting
    once: on every expression that the first substitution returns, a second
    one replaces nothing. *)
Theorem substitute_idempotent expression substitution :
  (∀ bound r name, substitution !! bound = Some r →
     name ∈ replacement_variables r → substitution !! name = None) →
  ∀ e, e ∈ replacement_list (substitute expression substitution).1 →
       substitute e substitution = (Single e, false).
Proof.
  intros Hrange e He. apply substitute_unbound. intros name Hname.
  assert (name ∈ replacement_variables (substitute expression substitution).1) as Hin.
  { unfold replacement_variables. apply list_elem_of_bind. eauto. }
  apply substitute_variables in Hin as [[_ Hnone]|(b & r & _ & Hr & Hin)]; [done|].
  by apply (Hrange b r).
Qed.

(** ** replace: round trips and the shape of the result *)








(** ** cached_property *)

Section cached_property_spec.
Context {V : Type}.

(** X25. The value is cached after the first access: when an access through
    an instance returns a value, with or without a slot, every later access
    to the instance as the first one left it returns the same value, leaves
    the instance as it is and does not depend on the getter, which is not
    run again. *)
Theorem cached_property_cached (getter : instance V → result (V * instance V))
    getter_name slot obj cls value obj' :
  __get__ (cached_property_init getter getter_name slot) (Some obj) cls =
    Ok (inr (value, obj')) →
  ∀ getter',
    __get__ (cached_property_init getter' getter_name slot) (Some obj') cls =
    Ok (inr (value, obj')).
Proof.
  unfold __get__, cached_property_init. cbn [_slot _name fget].
  destruct slot as [slot|].
  - case_decide as Hslot; [|done].
    destruct (slot_values obj !! slot) as [v|] eqn:Hv.
    + intros [= <- <-] getter'. by rewrite Hv.
    + destruct (getter obj) as [[v obj1]|e]; [|done]. cbn.
      intros [= <- <-] getter'. cbn. by rewrite lookup_insert_eq.
  - case_decide as Hname.
    + cbn. apply elem_of_dom in Hname as [v Hv]. rewrite Hv.
      intros [= <- <-] getter'. rewrite decide_True by (apply elem_of_dom; eauto).
      cbn. by rewrite Hv.
    + destruct (getter obj) as [[v obj1]|e]; [|done]. cbn.
      rewrite lookup_insert_eq. intros [= <- <-] getter'. cbn.
      rewrite decide_True by (apply elem_of_dom; rewrite lookup_insert_eq; eauto).
      cbn. by rewrite lookup_insert_eq.
Qed.
End cached_property_spec.

Lemma substitute_idempotent_witness :
  substitute (Operation "f" [Variable_ "x"; Symbol "c"])
    {[ "x" := Sequence [Symbol "a"; Variable_ "y"] ]} =
    (Single (Operation "f" [Symbol "a"; Variable_ "y"; Symbol "c"]), true) ∧
  ∀ e, e ∈ replacement_list
             (substitute (Operation "f" [Variable_ "x"; Symbol "c"])
                {[ "x" := Sequence [Symbol "a"; Variable_ "y"] ]}).1 →
       substitute e {[ "x" := Sequence [Symbol "a"; Variable_ "y"] ]} = (Single e, false).
Proof.
  split; [reflexivity|].
  apply (substitute_idempotent (Operation "f" [Variable_ "x"; Symbol "c"])
           {[ "x" := Sequence [Symbol "a"; Variable_ "y"] ]}).
  intros bound r name [<- <-]%lookup_singleton_Some Hname.
  change (name ∈ ["y"]) in Hname. apply list_elem_of_singleton in Hname as ->.
  by apply lookup_singleton_ne.
Defined.





Lemma cached_property_cached_witness :
  __get__ (cached_property_init answer_getter "my_property" None)
    (Some {| __dict__ := ∅; slot_values := ∅ |}) ∅ =
    Ok (inr (42, {| __dict__ := {[ "my_property" := 42 ]}; slot_values := ∅ |})) ∧
  ∀ getter',
    __get__ (cached_property_init getter' "my_property" None)
      (Some {| __dict__ := {[ "my_property" := 42 ]}; slot_values := ∅ |}) ∅ =
    Ok (inr (42, {| __dict__ := {[ "my_property" := 42 ]}; slot_values := ∅ |})).
Proof.
  assert (__get__ (cached_property_init answer_getter "my_property" None)
            (Some {| __dict__ := ∅; slot_values := ∅ |}) ∅ =
          Ok (inr (42, {| __dict__ := {[ "my_property" := 42 ]}; slot_values := ∅ |})))
    as Hfirst by (vm_compute; reflexivity).
  split; [exact Hfirst|].
  exact (cached_property_cached answer_getter "my_property" None _ _ _ _ Hfirst).
Defined.
